(** * Klocwork web API client: a shallow embedding of [lib/klocwork/webapi.py]

    The development follows the Python module function by function:
    [get_token], [strip_path], [fetch], [MultiFetchHelper.fetch],
    [multifetch] and the methods of [KlocworkWebApi].  Python values decoded
    from JSON are an inductive type, dictionaries are finite maps, exceptions
    are an error monad, the dictionaries that callers share with [fetch] and
    [multifetch] live in a store of objects, and the thread pool behind
    [imap_unordered] is a labelled transition system. *)

From Stdlib Require Import ZArith String Ascii DecimalString.
From stdpp Require Import base gmap strings list fin_maps.

Set Warnings "-register-all".

(** ** Exceptions and results *)

Inductive exn :=
| KeyError | IndexError | TypeError | AttributeError
| UnicodeEncodeError | ValueError | URLError | RuntimeError | IOError.

Inductive outcome (A : Type) :=
| Ok (a : A)
| Raise (e : exn).
Arguments Ok {A} a.
Arguments Raise {A} e.

#[global] Instance outcome_ret : MRet outcome := λ A a, Ok a.
#[global] Instance outcome_bind : MBind outcome := λ A B f m,
  match m with
  | Ok a => f a
  | Raise e => Raise e
  end.

Definition is_ok {A} (m : outcome A) : bool :=
  match m with Ok _ => true | Raise _ => false end.

Definition raises {A} (m : outcome A) : Prop := ∃ e, m = Raise e.

(** [for x in l: acc = body(acc, x)], leaving the loop at the first exception. *)
Fixpoint for_each {A S} (body : S → A → outcome S) (l : list A) (acc : S)
  : outcome S :=
  match l with
  | [] => Ok acc
  | x :: l' => acc' ← body acc x; for_each body l' acc'
  end.

(** [[f(x) for x in l]], leaving at the first exception. *)
Fixpoint map_each {A B} (f : A → outcome B) (l : list A) : outcome (list B) :=
  match l with
  | [] => Ok []
  | x :: l' => y ← f x; ys ← map_each f l'; Ok (y :: ys)
  end.

(** ** Python values as [json.loads] produces them

    JSON numbers are represented by integers; objects have string keys. *)

Inductive value :=
| VNone
| VBool (b : bool)
| VInt (n : Z)
| VStr (s : string)
| VList (l : list value)
| VDict (d : gmap string value).

Abbreviation dict := (gmap string value).

(** The Issue Table: the objects of the search response under [str(id)]. *)
Abbreviation table := (gmap string value).

(** What a fetch task delivers: the decoded records or its exception. *)
Abbreviation result := (outcome (list value)).

(** Truth value of an object, as tested by [if x] and [not x]. *)
Definition truthy (v : value) : bool :=
  match v with
  | VNone => false
  | VBool b => b
  | VInt n => negb (n =? 0)%Z
  | VStr s => negb (String.eqb s "")
  | VList l => match l with [] => false | _ => true end
  | VDict d => match map_to_list d with [] => false | _ => true end
  end.

(** [v == s] for a string literal [s]. *)
Definition value_eq_str (v : value) (s : string) : bool :=
  match v with
  | VStr s' => String.eqb s' s
  | _ => false
  end.

(** [v[key]] for a string literal [key]. *)
Definition getitem (v : value) (key : string) : outcome value :=
  match v with
  | VDict d => match d !! key with Some x => Ok x | None => Raise KeyError end
  | _ => Raise TypeError
  end.

(** [v[0]]. A JSON object has no integer key, so a dictionary raises
    [KeyError]. *)
Definition getitem0 (v : value) : outcome value :=
  match v with
  | VList (x :: _) => Ok x
  | VList [] => Raise IndexError
  | VStr (String c _) => Ok (VStr (String c ""))
  | VStr "" => Raise IndexError
  | VDict _ => Raise KeyError
  | _ => Raise TypeError
  end.

(** [v.get(key, default)]: only dictionaries have the method. *)
Definition method_get (v : value) (key : string) (dflt : value)
  : outcome value :=
  match v with
  | VDict d => Ok (default dflt (d !! key))
  | _ => Raise AttributeError
  end.

(** ** String methods used by the module *)

(** [s.startswith(sub)]. *)
Fixpoint startswith (s sub : string) : bool :=
  match sub, s with
  | "", _ => true
  | String a sub', String b s' =>
      if Ascii.eqb a b then startswith s' sub' else false
  | String _ _, "" => false
  end.

(** [s.rfind(sub)]: the highest index at which [sub] occurs in [s], where
    [off] is the index of the first character of [s]; [None] when there is
    no occurrence. *)
Fixpoint rfind_from (off : nat) (s sub : string) : option nat :=
  match s with
  | "" => if startswith "" sub then Some off else None
  | String _ s' =>
      match rfind_from (S off) s' sub with
      | Some i => Some i
      | None => if startswith s sub then Some off else None
      end
  end.

Definition rfind (s sub : string) : Z :=
  match rfind_from 0 s sub with
  | Some i => Z.of_nat i
  | None => (-1)%Z
  end.

(** [s[n:]] for a non-negative [n]. *)
Fixpoint string_drop (n : nat) (s : string) : string :=
  match n, s with
  | O, _ => s
  | S n', String _ s' => string_drop n' s'
  | S _, "" => ""
  end.

Definition slice_from (pos : Z) (s : string) : string :=
  string_drop (Z.to_nat pos) s.

(** [sub] occurs in [s] at index [i]. *)
Definition occurs_at (sub s : string) (i : nat) : Prop :=
  i ≤ String.length s ∧ startswith (string_drop i s) sub = true.

(** [s.lstrip()], [s.rstrip()] and [s.strip()] without argument. *)
Fixpoint lstrip (s : string) : string :=
  match s with
  | String c s' => if Ascii.is_space c then lstrip s' else s
  | "" => ""
  end.

Fixpoint rstrip (s : string) : string :=
  match s with
  | String c s' =>
      match rstrip s' with
      | "" => if Ascii.is_space c then "" else String c ""
      | r => String c r
      end
  | "" => ""
  end.

Definition strip (s : string) : string := rstrip (lstrip s).

(** [s.split(c)] for a one-character separator: never the empty list. *)
Fixpoint split (c : ascii) (s : string) : list string :=
  match s with
  | "" => [""]
  | String a s' =>
      if Ascii.eqb a c then "" :: split c s'
      else match split c s' with
           | h :: t => String a h :: t
           | [] => [String a ""]
           end
  end.

(** [s.replace(a, b)] for single characters. *)
Fixpoint replace_char (a b : ascii) (s : string) : string :=
  match s with
  | "" => ""
  | String c s' =>
      String (if Ascii.eqb c a then b else c) (replace_char a b s')
  end.

(** [l[i]] on a list. *)
Definition index {A} (l : list A) (i : nat) : outcome A :=
  match l !! i with
  | Some x => Ok x
  | None => Raise IndexError
  end.

(** The lines a text file yields when iterated over: each keeps its
    newline. *)
Fixpoint file_lines (content : string) : list string :=
  match content with
  | "" => []
  | String a rest =>
      if Ascii.eqb a "010"%char then String a "" :: file_lines rest
      else match file_lines rest with
           | h :: t => String a h :: t
           | [] => [String a ""]
           end
  end.

(** [str(n)] for an integer. *)
Definition str_int (n : Z) : string := NilEmpty.string_of_int (Z.to_int n).

Definition is_ascii (c : ascii) : bool :=
  match c with Ascii _ _ _ _ _ _ _ b7 => negb b7 end.

Fixpoint all_ascii (s : string) : bool :=
  match s with
  | "" => true
  | String c s' => is_ascii c && all_ascii s'
  end.

(** ** The environment of the program

    Name resolution, the platform's path functions, the HTTP transport and
    the JSON decoder are outside the module.  The server is taken to answer
    a request as a function of the URL and the form parameters. *)

Class Env := {
  (** [socket.getfqdn] *)
  getfqdn : string → string;
  (** [os.sep] *)
  sep : string;
  (** [os.path.normpath] on a string *)
  normpath : string → string;
  (** [os.path.relpath(path, start)]; [None] when it raises *)
  relpath : string → string → option string;
  (** [str] of a list or a dictionary *)
  str_container : value → string;
  (** [urllib2.urlopen(urllib2.Request(url, urllib.urlencode(params)))]:
      the lines of the response body, or a transport failure *)
  urlopen : string → dict → outcome (list string);
  (** [json.loads] *)
  json_loads : string → outcome value
}.

Section WebApi.
Context `{Env}.

(** [str(v)]: decoded JSON strings are unicode objects, which [str] encodes
    as ASCII. *)
Definition py_str (v : value) : outcome string :=
  match v with
  | VNone => Ok "None"
  | VBool true => Ok "True"
  | VBool false => Ok "False"
  | VInt n => Ok (str_int n)
  | VStr s => if all_ascii s then Ok s else Raise UnicodeEncodeError
  | VList _ | VDict _ => Ok (str_container v)
  end.

Definition MAX_PARALLEL_FETCH_COUNT : nat := 20.

(** *** [get_token] *)

(** [if preferred_user]: [None] and the empty string are both false. *)
Definition user_given (preferred_user : option string) : bool :=
  match preferred_user with
  | Some u => negb (String.eqb u "")
  | None => false
  end.

(** [values[2] != preferred_user] *)
Definition user_differs (u : string) (preferred_user : option string) : bool :=
  match preferred_user with
  | Some p => negb (String.eqb u p)
  | None => true
  end.

(** The loop over the lines of the token file; [host] is already fully
    qualified. *)
Fixpoint get_token_scan (host : string) (port : Z)
    (preferred_user : option string) (entries : list string)
  : outcome (option string * option string) :=
  match entries with
  | [] => Ok (None, None)
  | entry :: rest =>
      let values := split ";"%char (strip entry) in
      v0 ← index values 0;
      matched ← (if String.eqb (getfqdn v0) host
                 then v1 ← index values 1; Ok (String.eqb v1 (str_int port))
                 else Ok false);
      if matched : bool then
        skip ← (if user_given preferred_user
                then v2 ← index values 2; Ok (user_differs v2 preferred_user)
                else Ok false);
        if skip : bool then get_token_scan host port preferred_user rest
        else v3 ← index values 3; v2 ← index values 2; Ok (Some v3, Some v2)
      else get_token_scan host port preferred_user rest
  end.

(** [ltoken_file] is the content of [~/.klocwork/ltoken]. *)
Definition get_token (ltoken_file : string) (host : string) (port : Z)
    (preferred_user : option string)
  : outcome (option string * option string) :=
  let host := getfqdn host in
  get_token_scan host port preferred_user (file_lines ltoken_file).

(** The token store as the specification describes it: entries
    [host;port;user;token], the first one that matches wins. *)

Record credential := Credential {
  cred_host : string;
  cred_port : string;
  cred_user : string;
  cred_token : string
}.

Definition parse_entry (entry : string) : option credential :=
  match split ";"%char (strip entry) with
  | h :: p :: u :: t :: _ => Some (Credential h p u t)
  | _ => None
  end.

(** Equal qualified hosts, equal port text, and the user of the filter when
    a non-empty one is given. *)
Definition entry_selected (host : string) (port : Z)
    (preferred_user : option string) (c : credential) : bool :=
  String.eqb (getfqdn (cred_host c)) (getfqdn host)
  && String.eqb (cred_port c) (str_int port)
  && match preferred_user with
     | Some u => String.eqb u "" || String.eqb (cred_user c) u
     | None => true
     end.

Definition first_selected (host : string) (port : Z)
    (preferred_user : option string) (entries : list credential)
  : option string * option string :=
  match List.find (entry_selected host port preferred_user) entries with
  | Some c => (Some (cred_token c), Some (cred_user c))
  | None => (None, None)
  end.

(** *** [strip_path] *)

Definition root_pattern (root : string) : string :=
  sep +:+ normpath root +:+ sep.

Fixpoint strip_path (path : string) (roots : list string) : string :=
  match roots with
  | [] => path
  | root :: roots' =>
      let pos := rfind path (root_pattern root) in
      if (0 <=? pos)%Z then slice_from pos path
      else strip_path path roots'
  end.

(** *** The store of dictionaries and the log of requests

    [fetch] and [multifetch] receive references to dictionaries owned by
    their caller and update them in place, so parameter dictionaries are
    objects in a store, named by locations.  [calls] records every request
    handed to the transport, in the order of issue. *)

Record world := World {
  heap : gmap nat dict;
  calls : list (string * dict)
}.

Definition M (A : Type) : Type := world → outcome A * world.

#[global] Instance M_ret : MRet M := λ A a w, (Ok a, w).
#[global] Instance M_bind : MBind M := λ A B f m w,
  match m w with
  | (Ok a, w') => f a w'
  | (Raise e, w') => (Raise e, w')
  end.

Definition lift {A} (m : outcome A) : M A := λ w, (m, w).

(** The dictionary a reference points to. *)
Definition deref (w : world) (l : nat) : dict := heap w !!! l.

(** A dictionary display [{...}] creates a new object. *)
Definition alloc (d : dict) : M nat := λ w,
  let l := fresh (dom (heap w)) in
  (Ok l, World (<[l := d]> (heap w)) (calls w)).

Fixpoint alloc_all (ds : list dict) : M (list nat) :=
  match ds with
  | [] => mret []
  | d :: ds' => l ← alloc d; ls ← alloc_all ds'; mret (l :: ls)
  end.

(** [target.update(source)]: the keys of [source] overwrite. *)
Definition dict_update (target source : nat) : M () := λ w,
  (Ok (), World (<[target := deref w source ∪ deref w target]> (heap w))
                (calls w)).

(** [urllib2.urlopen(urllib2.Request(url, urllib.urlencode(params)))] *)
Definition request (url : string) (params : nat) : M (list string) := λ w,
  let d := deref w params in
  (urlopen url d, World (heap w) (calls w ++ [(url, d)])).

(** [for line in response: result.append(json.loads(line))] *)
Definition decode_lines (response : list string) : outcome (list value) :=
  map_each json_loads response.

(** *** [fetch] *)

Definition fetch (url : string) (params common_params : nat)
  : M (list value) :=
  dict_update params common_params;;
  response ← request url params;
  lift (decode_lines response).

(** *** [MultiFetchHelper.fetch] *)

Definition MultiFetchHelper_fetch (url : string) (params : nat)
  : M (list value) :=
  response ← request url params;
  lift (decode_lines response).

(** *** [multifetch]

    The result is either the empty list or the iterator of a thread pool
    with [threads] workers over the tasks [params]. *)

Inductive fetch_results :=
| EmptyList
| PoolIter (threads : nat) (url : string) (tasks : list nat).

Fixpoint update_all (params : list nat) (common_params : nat) : M () :=
  match params with
  | [] => mret ()
  | p :: ps => dict_update p common_params;; update_all ps common_params
  end.

Definition multifetch (url : string) (params : list nat)
    (common_params : nat) : M fetch_results :=
  update_all params common_params;;
  let threads := length params `min` MAX_PARALLEL_FETCH_COUNT in
  if (0 <? threads)%nat then mret (PoolIter threads url params)
  else mret EmptyList.

(** What the server's answer to the form parameters [d] decodes to. *)
Definition fetch_result (url : string) (d : dict) : result :=
  response ← urlopen url d; decode_lines response.

(** The same requests issued one after the other with [fetch], each result
    or exception collected. *)
Fixpoint serial_fetch (url : string) (params : list nat)
    (common_params : nat) (w : world) : list result * world :=
  match params with
  | [] => ([], w)
  | p :: ps =>
      let '(r, w') := fetch url p common_params w in
      let '(rs, w'') := serial_fetch url ps common_params w' in
      (r :: rs, w'')
  end.

(** *** [ThreadPool(threads).imap_unordered(f, params)]

    Tasks wait in submission order; each worker thread runs one task at a
    time; a finished result joins the queue of the iterator, which hands
    results to the caller in the order of completion. *)

Record pool := Pool {
  pool_url : string;
  (** tasks not yet taken, with their submission index *)
  todo : list (nat * nat);
  (** per worker thread: the task it runs and the result it is receiving *)
  workers : list (option (nat * result));
  (** finished results not yet handed to the caller *)
  outbox : list (nat * result);
  (** results handed to the caller, oldest first *)
  yielded : list (nat * result)
}.

Inductive label :=
| Take (w : nat)      (** worker [w] takes the next task and issues its request *)
| Finish (w : nat)    (** worker [w] delivers the result of its task *)
| Next.               (** the caller's loop receives the next result *)

Definition init_pool (threads : nat) (url : string) (tasks : list nat)
  : pool :=
  Pool url (imap (λ i p, (i, p)) tasks) (replicate threads None) [] [].

Definition pool_step (l : label) (s : pool * world) : option (pool * world) :=
  let '(p, w) := s in
  match l with
  | Take k =>
      match workers p !! k, todo p with
      | Some None, (i, params) :: rest =>
          let '(r, w') := MultiFetchHelper_fetch (pool_url p) params w in
          Some (Pool (pool_url p) rest (<[k := Some (i, r)]> (workers p))
                     (outbox p) (yielded p), w')
      | _, _ => None
      end
  | Finish k =>
      match workers p !! k with
      | Some (Some ir) =>
          Some (Pool (pool_url p) (todo p) (<[k := None]> (workers p))
                     (outbox p ++ [ir]) (yielded p), w)
      | _ => None
      end
  | Next =>
      match outbox p with
      | ir :: rest =>
          Some (Pool (pool_url p) (todo p) (workers p) rest
                     (yielded p ++ [ir]), w)
      | [] => None
      end
  end.

(** A schedule is a list of labels; a label that is not enabled is passed
    over. *)
Definition step_or_stay (s : pool * world) (l : label) : pool * world :=
  default s (pool_step l s).

Definition run_schedule (sched : list label) (s : pool * world)
  : pool * world :=
  foldl step_or_stay s sched.

Definition busy (p : pool) : list (nat * result) := omap id (workers p).

(** Every task has been run and its result handed over. *)
Definition complete (p : pool) : bool :=
  match todo p, busy p, outbox p with
  | [], [], [] => true
  | _, _, _ => false
  end.

(** Three steps per waiting task, two per running one, one per result in
    the queue. *)
Definition remaining (p : pool) : nat :=
  3 * length (todo p) + 2 * length (busy p) + length (outbox p).

Fixpoint first_busy (k : nat) (ws : list (option (nat * result)))
  : option nat :=
  match ws with
  | [] => None
  | Some _ :: _ => Some k
  | None :: ws' => first_busy (S k) ws'
  end.

Fixpoint first_idle (k : nat) (ws : list (option (nat * result)))
  : option nat :=
  match ws with
  | [] => None
  | None :: _ => Some k
  | Some _ :: ws' => first_idle (S k) ws'
  end.

(** A fixed policy that brings any pool to completion: hand over what is
    queued, let running tasks finish, start waiting tasks. *)
Definition next_label (p : pool) : option label :=
  match outbox p with
  | _ :: _ => Some Next
  | [] =>
      match first_busy 0 (workers p) with
      | Some k => Some (Finish k)
      | None =>
          match todo p with
          | [] => None
          | _ :: _ => Take <$> first_idle 0 (workers p)
          end
      end
  end.

Fixpoint drain (fuel : nat) (s : pool * world) : pool * world :=
  match fuel with
  | O => s
  | S fuel' =>
      match next_label s.1 with
      | Some l => drain fuel' (step_or_stay s l)
      | None => s
      end
  end.

(** The results a loop over the iterator sees, in order: the pool follows
    [sched] and then runs to completion.  The world returned is the one in
    which every task has run, whether or not the loop of the caller takes
    all the results; what [get_klocwork_issues] returns does not depend on
    it. *)
Definition iterate (sched : list label) (it : fetch_results)
  : M (list result) := λ w,
  match it with
  | EmptyList => (Ok [], w)
  | PoolIter threads url tasks =>
      let s := run_schedule sched (init_pool threads url tasks, w) in
      let s' := drain (remaining s.1) s in
      (Ok (yielded s'.1).*2, s'.2)
  end.

(** What holds of a pool over [tasks] started in world [w0]: the store is
    untouched, the tasks taken so far are a prefix of the submitted ones,
    their results are exactly the results in flight, queued or handed over,
    and one request was logged for each of them. *)
Definition pool_inv (url : string) (tasks : list nat) (w0 : world)
    (s : pool * world) : Prop :=
  heap s.2 = heap w0 ∧
  pool_url s.1 = url ∧
  ∃ taken : list (nat * nat),
    imap (λ i p, (i, p)) tasks = taken ++ todo s.1 ∧
    yielded s.1 ++ outbox s.1 ++ busy s.1 ≡ₚ
      (λ ip, (ip.1, fetch_result url (deref w0 ip.2))) <$> taken ∧
    calls s.2 = calls w0 ++ ((λ ip, (url, deref w0 ip.2)) <$> taken).

(** *** [KlocworkWebApi] *)

Record KlocworkWebApi := {
  api_url : string;
  api_ltoken : string;
  api_user : string
}.

(** [__init__].  [ltoken_file] is the content of [~/.klocwork/ltoken], or
    the exception that [open] raises; [host] and [port] may be [None], as
    they are when the command line does not give them.  A port that is
    [None] fails the [%d] of the URL; a host that is [None] is printed as
    [None] in the URL and fails in [socket.getfqdn], the first statement
    of [get_token]; a missing or empty token raises [RuntimeError]. *)
Definition KlocworkWebApi_init (ltoken_file : outcome string)
    (host : option string) (port : option Z)
    (preferred_user : option string) : outcome KlocworkWebApi :=
  match port with
  | None => Raise TypeError
  | Some port =>
      let url :=
        "http://" +:+ default "None" host +:+ ":" +:+ str_int port
        +:+ "/review/api" in
      tu ← match host with
           | None => Raise AttributeError
           | Some host =>
               content ← ltoken_file;
               get_token content host port preferred_user
           end;
      match tu with
      | (Some ltoken, Some user) =>
          if String.eqb ltoken "" then Raise RuntimeError
          else Ok {| api_url := url; api_ltoken := ltoken; api_user := user |}
      | _ => Raise RuntimeError
      end
  end.

(** [v[key] = x] *)
Definition setitem (v : value) (key : string) (x : value) : outcome value :=
  match v with
  | VDict d => Ok (VDict (<[key := x]> d))
  | _ => Raise TypeError
  end.

(** [v.update(r)] for a dictionary [r]; the loop below reaches it only
    after [r['id']] succeeded, that is with a dictionary. *)
Definition method_update (v r : value) : outcome value :=
  match v with
  | VDict d =>
      match r with
      | VDict dr => Ok (VDict (dr ∪ d))
      | _ => Raise TypeError
      end
  | _ => Raise AttributeError
  end.

(** [issues_table[k]]: the keys of the table are strings; lists and
    dictionaries are not hashable.  The key found is returned with the
    object. *)
Definition table_getitem (t : table) (k : value) : outcome (string * value) :=
  match k with
  | VStr s =>
      match t !! s with
      | Some issue => Ok (s, issue)
      | None => Raise KeyError
      end
  | VList _ | VDict _ => Raise TypeError
  | _ => Raise KeyError
  end.

(** The detail request for one issue. *)
Definition details_request (project : string) (id : value) : dict :=
  {[ "action" := VStr "issue_details";
     "project" := VStr project;
     "id" := id ]}.

(** Body of the loop over the search response: the table entry and the
    detail request of one issue.  The request dictionaries are collected as
    values and become objects when passed to [multifetch]. *)
Definition index_issue (project : string) (acc : table * list dict)
    (issue : value) : outcome (table * list dict) :=
  id ← getitem issue "id";
  key ← py_str id;
  id' ← getitem issue "id";
  Ok (<[key := issue]> acc.1, acc.2 ++ [details_request project id']).

(** [issues_table[r['id']].update(r)] *)
Definition merge_record (t : table) (r : value) : outcome table :=
  id ← getitem r "id";
  entry ← table_getitem t id;
  issue ← method_update entry.2 r;
  Ok (<[entry.1 := issue]> t).

(** One result of the iterator: an exception of the task is raised in the
    loop, otherwise every record of the response is merged. *)
Definition merge_response (t : table) (response : result) : outcome table :=
  records ← response;
  for_each merge_record records t.

Definition merge_all (t : table) (responses : list result) : outcome table :=
  for_each merge_response responses t.

(** The [id] of record [r] is a key of table [t]. *)
Definition id_is_key (t : table) (r : value) : Prop :=
  ∃ s, getitem r "id" = Ok (VStr s) ∧ is_Some (t !! s).

(** Every entry of the table is a dictionary. *)
Definition all_dicts (t : table) : Prop :=
  ∀ k v, t !! k = Some v → ∃ d, v = VDict d.

(** [os.path.normpath(v)] *)
Definition normpath_value (v : value) : outcome string :=
  match v with
  | VStr s => Ok (normpath s)
  | _ => Raise AttributeError
  end.

(** [if project_root] *)
Definition root_given (project_root : option string) : bool :=
  match project_root with
  | Some r => negb (String.eqb r "")
  | None => false
  end.

(** [relpath = location], replaced by [os.path.relpath(location,
    project_root)] unless that raises. *)
Definition relative_location (location : string)
    (project_root : option string) : string :=
  match project_root with
  | Some root =>
      if root_given project_root
      then default location (relpath location root)
      else location
  | None => location
  end.

(** Body of the loop over the values of the table. *)
Definition derive_fields (project_root : option string) (issue : value)
  : outcome value :=
  history ← method_get issue "history" (VList [VDict ∅]);
  latest ← getitem0 history;
  comment ← method_get latest "comment" (VStr "");
  issue ← setitem issue "comment" comment;
  c ← getitem issue "comment";
  undecided ← (if negb (truthy c) then Ok true
               else code ← getitem issue "code";
                    Ok (value_eq_str code "Analyze"));
  issue ← setitem issue "dispositioned"
            (VStr (if undecided : bool then "no" else "yes"));
  loc ← getitem issue "location";
  location ← normpath_value loc;
  let relpath := relative_location location project_root in
  setitem issue "location" (VStr (replace_char "\" "/" relpath)).

(** [issues_table.values()]: Python fixes no order; the model lists the
    values in the order of the map. *)
Definition table_values (t : table) : list value := (map_to_list t).*2.

(** [get_klocwork_issues] up to the call of [multifetch]: the table of the
    search response and the iterator over the detail responses. *)
Definition search_phase (self : KlocworkWebApi) (build project : string)
  : M (table * fetch_results) :=
  common ← alloc {[ "user" := VStr (api_user self);
                    "ltoken" := VStr (api_ltoken self) ]};
  search ← alloc {[ "action" := VStr "search";
                    "project" := VStr project;
                    "build" := VStr build ]};
  issues_response ← fetch (api_url self) search common;
  indexed ← lift (for_each (index_issue project) issues_response (∅, []));
  issue_details_requests ← alloc_all indexed.2;
  issues_details_response ←
    multifetch (api_url self) issue_details_requests common;
  mret (indexed.1, issues_details_response).

(** [get_klocwork_issues]; [sched] is the schedule of the thread pool. *)
Definition get_klocwork_issues (self : KlocworkWebApi)
    (build project : string) (project_root : option string)
    (sched : list label) : M (list value) :=
  phase1 ← search_phase self build project;
  responses ← iterate sched phase1.2;
  issues_table ← lift (merge_all phase1.1 responses);
  lift (map_each (derive_fields project_root) (table_values issues_table)).

(** [get_klocwork_checkers] *)
Definition get_klocwork_checkers (self : KlocworkWebApi) (project : string)
  : M (list value) :=
  common ← alloc {[ "user" := VStr (api_user self);
                    "ltoken" := VStr (api_ltoken self) ]};
  params ← alloc {[ "action" := VStr "defect_types";
                    "project" := VStr project ]};
  fetch (api_url self) params common.

(** *** The detail phase as a transition system

    The records of the search response are objects of the store, which the
    worker threads share with the calling thread; [issues_table] maps each
    key to the object of its record.  The loop [for response in
    issues_details_response] runs on the calling thread: each [Next] step
    receives a result and merges its records into these objects, until a
    merge raises. *)

(** [issues_table[id]], the reference to the entry. *)
Definition table_ref (t : gmap string nat) (id : value) : outcome nat :=
  match id with
  | VStr s =>
      match t !! s with
      | Some l => Ok l
      | None => Raise KeyError
      end
  | VList _ | VDict _ => Raise TypeError
  | _ => Raise KeyError
  end.

(** [issues_table[r['id']].update(r)]: the object of the entry is updated
    in place. *)
Definition merge_record_at (t : gmap string nat) (r : value) : M () :=
  l ← lift (id ← getitem r "id"; table_ref t id);
  match r with
  | VDict dr =>
      λ w, (Ok (), World (<[l := dr ∪ deref w l]> (heap w)) (calls w))
  | _ => lift (Raise TypeError)
  end.

Fixpoint merge_records_at (t : gmap string nat) (records : list value)
  : M () :=
  match records with
  | [] => mret ()
  | r :: rest => merge_record_at t r;; merge_records_at t rest
  end.

(** One result of the iterator: an exception of the task is raised in the
    loop, otherwise every record of the response is merged. *)
Definition merge_response_at (t : gmap string nat) (response : result)
  : M () :=
  records ← lift response; merge_records_at t records.

Fixpoint merge_all_at (t : gmap string nat) (responses : list result)
  : M () :=
  match responses with
  | [] => mret ()
  | r :: rest => merge_response_at t r;; merge_all_at t rest
  end.

Record detail_state := DetailState {
  ds_pool : pool;
  ds_world : world;
  (** [issues_table] *)
  ds_table : gmap string nat;
  (** the loop is running, or the exception that ended it *)
  ds_loop : outcome ()
}.

(** A step of a worker thread is a step of the pool; [Next] is an
    iteration of the caller's loop, which has no further iteration once a
    merge has raised. *)
Definition detail_step (l : label) (s : detail_state) : option detail_state :=
  match l with
  | Next =>
      match ds_loop s, pool_step Next (ds_pool s, ds_world s) with
      | Ok _, Some (p', w') =>
          match last (yielded p') with
          | Some (_, r) =>
              let '(res, w'') := merge_response_at (ds_table s) r w' in
              Some (DetailState p' w'' (ds_table s) res)
          | None => None
          end
      | _, _ => None
      end
  | _ =>
      match pool_step l (ds_pool s, ds_world s) with
      | Some (p', w') => Some (DetailState p' w' (ds_table s) (ds_loop s))
      | None => None
      end
  end.

Fixpoint detail_run (sched : list label) (s : detail_state)
  : option detail_state :=
  match sched with
  | [] => Some s
  | l :: sched' =>
      match detail_step l s with
      | Some s' => detail_run sched' s'
      | None => None
      end
  end.

(** The entries of the table as objects of the store. *)
Definition share_entry (acc : option (gmap string nat * world))
    (entry : string * value) : option (gmap string nat * world) :=
  match acc, entry.2 with
  | Some (t, w), VDict d =>
      let l := fresh (dom (heap w)) in
      Some (<[entry.1 := l]> t, World (<[l := d]> (heap w)) (calls w))
  | _, _ => None
  end.

(** The state in which the loop over the detail responses starts. *)
Definition detail_start (phase1 : table * fetch_results) (w : world)
  : option detail_state :=
  match phase1.2, foldl share_entry (Some (∅, w)) (map_to_list phase1.1) with
  | PoolIter threads url tasks, Some (t, w') =>
      Some (DetailState (init_pool threads url tasks) w' t (Ok ()))
  | _, _ => None
  end.

(** What happens to which task when a step is taken. *)
Inductive event :=
| Started (i : nat)     (** a worker issues the request of task [i] *)
| Finished (i : nat)    (** the worker of task [i] delivers its result *)
| Merged (i : nat).     (** the caller merges the result of task [i] *)

Definition event_of (l : label) (p : pool) : option event :=
  match l with
  | Take k =>
      match workers p !! k, todo p with
      | Some None, (i, _) :: _ => Some (Started i)
      | _, _ => None
      end
  | Finish k =>
      match workers p !! k with
      | Some (Some (i, _)) => Some (Finished i)
      | _ => None
      end
  | Next =>
      match outbox p with
      | (i, _) :: _ => Some (Merged i)
      | [] => None
      end
  end.

(** The events of a run, up to the first label that is not enabled. *)
Fixpoint detail_trace (sched : list label) (s : detail_state) : list event :=
  match sched with
  | [] => []
  | l :: sched' =>
      match event_of l (ds_pool s), detail_step l s with
      | Some e, Some s' => e :: detail_trace sched' s'
      | _, _ => []
      end
  end.

End WebApi.

(** ** A concrete environment for evaluating the functions

    POSIX path conventions, a resolver that qualifies short host names, and
    a server given by its answers. *)

Fixpoint join (c : string) (l : list string) : string :=
  match l with
  | [] => ""
  | [x] => x
  | x :: l' => x +:+ c +:+ join c l'
  end.

(** One component of [posixpath.normpath]: [stack] is [new_comps]. *)
Definition normpath_step (initial_slashes : nat) (stack : list string)
    (comp : string) : list string :=
  if String.eqb comp "" || String.eqb comp "." then stack
  else if negb (String.eqb comp "..")
          || (Nat.eqb initial_slashes 0 && bool_decide (stack = []))
          || bool_decide (last stack = Some "..")
  then stack ++ [comp]
  else removelast stack.

Definition posix_normpath (path : string) : string :=
  if String.eqb path "" then "."
  else
    let initial_slashes :=
      if startswith path "/"
      then if startswith path "//" && negb (startswith path "///")
           then 2 else 1
      else 0 in
    let comps := foldl (normpath_step initial_slashes) [] (split "/" path) in
    let res :=
      String.concat "" (replicate initial_slashes "/") +:+ join "/" comps in
    if String.eqb res "" then "." else res.

Definition qualify (name : string) : string :=
  if String.eqb name "kw" then "kw.example.com" else name.

(** The server: the lines it sends for a search and for the details of an
    issue id; any other request fails. *)
Definition respond (search : list string) (details : value → list string)
    (params : dict) : outcome (list string) :=
  match params !! "action" with
  | Some (VStr a) =>
      if String.eqb a "search" then Ok search
      else if String.eqb a "issue_details"
      then match params !! "id" with
           | Some id => Ok (details id)
           | None => Raise URLError
           end
      else Raise URLError
  | _ => Raise URLError
  end.

(** The decoder, given by the documents behind the lines the server uses. *)
Fixpoint decode (docs : list (string * value)) (line : string)
  : outcome value :=
  match docs with
  | [] => Raise ValueError
  | (l, v) :: docs' => if String.eqb l line then Ok v else decode docs' line
  end.

(** [relpath] is made to raise: the command line passes no project root,
    so the runs below never call it. *)
Definition posix_env (search : list string) (details : value → list string)
    (docs : list (string * value)) : Env := {|
  getfqdn := qualify;
  sep := "/";
  normpath := posix_normpath;
  relpath := λ _ _, None;
  str_container := λ _, "[...]";
  urlopen := λ _ params, respond search details params;
  json_loads := decode docs
|}.

Definition empty_world : world := World ∅ [].

Definition kw_api : KlocworkWebApi :=
  {| api_url := "http://kw:8080/review/api";
     api_ltoken := "tok";
     api_user := "alice" |}.

Definition is_int (n : Z) (v : value) : bool :=
  match v with VInt m => (m =? n)%Z | _ => false end.

(** The answer to a details request: [line] for issue 1, nothing else. *)
Definition details_of_1 (line : string) (id : value) : list string :=
  if is_int 1 id then [line] else [].

(** Search record [{id: 1, code: "Analyze", location: "/a/b/c",
    history: []}]. *)
Definition issue_empty_history : value :=
  VDict {[ "id" := VInt 1; "code" := VStr "Analyze";
           "location" := VStr "/a/b/c"; "history" := VList [] ]}.

(** Search record [{id: 1, code: "Analyze", location: "/a/b/c"}]. *)
Definition issue_no_history : value :=
  VDict {[ "id" := VInt 1; "code" := VStr "Analyze";
           "location" := VStr "/a/b/c" ]}.

(** Detail record [{id: 1, severity: "High"}], the id a number. *)
Definition detail_int_id : value :=
  VDict {[ "id" := VInt 1; "severity" := VStr "High" ]}.

(** Detail record [{id: "1", severity: "High"}], the id a string. *)
Definition detail_str_id : value :=
  VDict {[ "id" := VStr "1"; "severity" := VStr "High" ]}.

(** Search record [{id: 1, code: "Fix", location: "/a/b/c",
    history: [{comment: "fixed"}]}]. *)
Definition issue_fixed : value :=
  VDict {[ "id" := VInt 1; "code" := VStr "Fix";
           "location" := VStr "/a/b/c";
           "history" := VList [VDict {[ "comment" := VStr "fixed" ]}] ]}.

(** Search record [{id: 1, code: "Fix", location: "/a/b/c",
    history: [{comment: null}]}]. *)
Definition issue_null_comment : value :=
  VDict {[ "id" := VInt 1; "code" := VStr "Fix";
           "location" := VStr "/a/b/c";
           "history" := VList [VDict {[ "comment" := VNone ]}] ]}.

Definition documents : list (string * value) :=
  [ ("issue-empty-history", issue_empty_history);
    ("issue-no-history", issue_no_history);
    ("issue-fixed", issue_fixed);
    ("issue-null-comment", issue_null_comment);
    ("detail-int-id", detail_int_id);
    ("detail-str-id", detail_str_id) ].

(** A second issue and its detail record. *)
Definition issue_2 : value :=
  VDict {[ "id" := VInt 2; "code" := VStr "Fix";
           "location" := VStr "/a/b/d" ]}.

Definition detail_2 : value :=
  VDict {[ "id" := VStr "2"; "severity" := VStr "Low" ]}.

Definition details_of_both (id : value) : list string :=
  if is_int 1 id then ["detail-str-id"]
  else if is_int 2 id then ["detail-2"] else [].

(** The search answers with two issues. *)
Definition two_issues : Env :=
  posix_env ["issue-no-history"; "issue-2"] details_of_both
    (("issue-2", issue_2) :: ("detail-2", detail_2) :: documents).

(** The search answers with [issue] and the details of issue 1 with
    [detail]. *)
Definition scenario (issue detail : string) : Env :=
  posix_env [issue] (details_of_1 detail) documents.

(** A server that is never asked. *)
Definition no_server : Env := posix_env [] (λ _, []) [].

Definition newline : string := String "010"%char "".

(** A token file with two entries for the same server. *)
Definition ltoken_two_users : string :=
  "kw;8080;alice;tok" +:+ newline
  +:+ "kw.example.com;8080;bob;tok2" +:+ newline.

(** The table after a search that returned [issue_no_history]. *)
Definition table_of_issue_1 : table := {[ "1" := issue_no_history ]}.

(** The assembled record of [issue_no_history] merged with
    [detail_str_id]. *)
Definition assembled_no_history : value :=
  VDict {[ "id" := VStr "1"; "code" := VStr "Analyze";
           "location" := VStr "/a/b/c"; "severity" := VStr "High";
           "comment" := VStr ""; "dispositioned" := VStr "no" ]}.

(** The assembled record of [issue_fixed] merged with [detail_str_id]. *)
Definition assembled_fixed : value :=
  VDict {[ "id" := VStr "1"; "code" := VStr "Fix";
           "location" := VStr "/a/b/c"; "severity" := VStr "High";
           "history" := VList [VDict {[ "comment" := VStr "fixed" ]}];
           "comment" := VStr "fixed"; "dispositioned" := VStr "yes" ]}.

(** The state in which the detail phase starts when the search returned
    two issues. *)
Definition two_issues_start : option detail_state :=
  match @search_phase two_issues kw_api "b1" "proj" empty_world with
  | (Ok phase1, w) => @detail_start phase1 w
  | (Raise _, _) => None
  end.

(** The table of the two issues as the search phase returns it. *)
Definition two_issues_table : table :=
  {[ "1" := issue_no_history; "2" := issue_2 ]}.

(** The start state written out: the table of references to the records
    of the two issues; the store after the search phase, with the common
    parameters, the search request, the two detail requests and the two
    records; and a pool of two workers over the two detail requests. *)
Definition two_issues_refs : gmap string nat := {[ "1" := 4; "2" := 5 ]}.

Definition two_issues_world : world :=
  World
    {[ 0 := {[ "user" := VStr "alice"; "ltoken" := VStr "tok" ]};
       1 := {[ "action" := VStr "search"; "project" := VStr "proj";
               "build" := VStr "b1";
               "user" := VStr "alice"; "ltoken" := VStr "tok" ]};
       2 := {[ "action" := VStr "issue_details"; "project" := VStr "proj";
               "id" := VInt 1;
               "user" := VStr "alice"; "ltoken" := VStr "tok" ]};
       3 := {[ "action" := VStr "issue_details"; "project" := VStr "proj";
               "id" := VInt 2;
               "user" := VStr "alice"; "ltoken" := VStr "tok" ]};
       4 := {[ "id" := VInt 1; "code" := VStr "Analyze";
               "location" := VStr "/a/b/c" ]};
       5 := {[ "id" := VInt 2; "code" := VStr "Fix";
               "location" := VStr "/a/b/d" ]} ]}
    [ ("http://kw:8080/review/api",
       {[ "action" := VStr "search"; "project" := VStr "proj";
          "build" := VStr "b1";
          "user" := VStr "alice"; "ltoken" := VStr "tok" ]}) ].

Definition two_issues_initial : detail_state :=
  DetailState (init_pool 2 "http://kw:8080/review/api" [2; 3])
    two_issues_world two_issues_refs (Ok ()).

(** A schedule in which the first result is merged while the second task
    is still running. *)
Definition overlapping_schedule : list label :=
  [Take 0; Take 1; Finish 0; Next; Finish 1; Next].

(** ** The token file as its writer lays it out *)

(** A field that the separator and white space leave intact. *)
Fixpoint plain (s : string) : bool :=
  match s with
  | "" => true
  | String c s' =>
      negb (Ascii.is_space c) && negb (Ascii.eqb c ";"%char) && plain s'
  end.

Definition plain_credential (c : credential) : bool :=
  plain (cred_host c) && plain (cred_port c)
  && plain (cred_user c) && plain (cred_token c).

(** One line [host;port;user;token] with its newline. *)
Definition format_entry (c : credential) : string :=
  cred_host c +:+ ";" +:+ cred_port c +:+ ";" +:+ cred_user c +:+ ";"
  +:+ cred_token c +:+ newline.

Fixpoint format_file (cs : list credential) : string :=
  match cs with
  | [] => ""
  | c :: cs' => format_entry c +:+ format_file cs'
  end.

(** No white space in [s]. *)
Fixpoint solid (s : string) : bool :=
  match s with
  | "" => true
  | String c s' => negb (Ascii.is_space c) && solid s'
  end.

(** The common parameters of every request of an API object. *)
Definition credentials (self : KlocworkWebApi) : dict :=
  {[ "user" := VStr (api_user self); "ltoken" := VStr (api_ltoken self) ]}.

(** The parameters of the search request before the common ones are
    added. *)
Definition search_params (project build : string) : dict :=
  {[ "action" := VStr "search";
     "project" := VStr project;
     "build" := VStr build ]}.

(** No backslash in [s]. *)
Fixpoint no_backslash (s : string) : bool :=
  match s with
  | "" => true
  | String c s' => negb (Ascii.eqb c "\"%char) && no_backslash s'
  end.

(** Two detail responses hold records with the same [id]. *)
Definition shares_id (a b : result) : Prop :=
  ∃ (records_a records_b : list value) (ra rb id : value),
    a = Ok records_a ∧ b = Ok records_b ∧
    ra ∈ records_a ∧ rb ∈ records_b ∧
    getitem ra "id" = Ok id ∧ getitem rb "id" = Ok id.

(** Some detail record with the id [s] has the value [v] in field [f]. *)
Definition detail_field (responses : list result) (s f : string)
    (v : value) : Prop :=
  ∃ (records : list value) (dr : dict),
    Ok records ∈ responses ∧ VDict dr ∈ records ∧
    dr !! "id" = Some (VStr s) ∧ dr !! f = Some v.

(** ** The command [klocwork_snapshot] *)

Section Snapshot.
Context `{Env}.

(** [csv.writer(sys.stdout, dialect='excel').writerow]: the writer is
    outside the program; it may reject a row with an exception. *)
Variable writerow : list value → outcome ().

Definition fields : list string :=
  ["id"; "dispositioned"; "code"; "severity"; "status"; "location";
   "name"; "url"; "comment"].

(** [[row.get(field, '') for field in fields]] *)
Definition report_row (row : value) : outcome (list value) :=
  map_each (λ field, method_get row field (VStr "")) fields.

(** [for row in issues_table: writer.writerow(...)]; [written] lists the
    rows handed to the writer so far. *)
Fixpoint write_rows (issues_table : list value)
    (written : list (list value)) : outcome () * list (list value) :=
  match issues_table with
  | [] => (Ok (), written)
  | row :: rest =>
      match report_row row with
      | Raise e => (Raise e, written)
      | Ok cells =>
          match writerow cells with
          | Raise e => (Raise e, written ++ [cells])
          | Ok _ => write_rows rest (written ++ [cells])
          end
      end
  end.

(** The arguments as [parse_args] delivers them: [--host], [--port] and
    [--user] are [None] when the command line does not give them, the
    project and the build are required.  The license server options are
    parsed and not used. *)
Record arguments := {
  args_host : option string;
  args_port : option Z;
  args_user : option string;
  args_project : string;
  args_build : string
}.

(** [main]: the outcome, the rows handed to the writer, and the world.
    [ltoken_file] is the content of the token file, or the exception that
    [open] raises. *)
Definition main (ltoken_file : outcome string) (args : arguments)
    (sched : list label) (w : world)
  : outcome () * list (list value) * world :=
  match KlocworkWebApi_init ltoken_file (args_host args) (args_port args)
          (args_user args) with
  | Raise e => (Raise e, [], w)
  | Ok kw_api =>
      match get_klocwork_issues kw_api (args_build args) (args_project args)
              None sched w with
      | (Raise e, w') => (Raise e, [], w')
      | (Ok issues_table, w') =>
          match writerow (VStr <$> fields) with
          | Raise e => (Raise e, [VStr <$> fields], w')
          | Ok _ =>
              let (res, written) :=
                write_rows issues_table [VStr <$> fields] in
              (res, written, w')
          end
      end
  end.

End Snapshot.

(** The cells of the report for an assembled issue. *)
Definition cells (o : dict) : list value :=
  (λ field, default (VStr "") (o !! field)) <$> fields.

(** A writer that accepts every row. *)
Definition accept_row (row : list value) : outcome () := Ok ().

Definition snapshot_args : arguments :=
  {| args_host := Some "kw"; args_port := Some 8080%Z; args_user := None;
     args_project := "proj"; args_build := "b1" |}.

(** ** Inputs of the further runs *)

(** The entries of [ltoken_two_users]. *)
Definition two_credentials : list credential :=
  [ Credential "kw" "8080" "alice" "tok";
    Credential "kw.example.com" "8080" "bob" "tok2" ].

(** A token file with an entry for another server and a blank line. *)
Definition ltoken_other_host : string :=
  "other;8080;carol;tok3" +:+ newline +:+ newline.

(** The dictionary of [issue_no_history] and what the loop over the table
    makes of it. *)
Definition entry_no_history : dict :=
  {[ "id" := VInt 1; "code" := VStr "Analyze"; "location" := VStr "/a/b/c" ]}.

Definition derived_no_history : dict :=
  {[ "id" := VInt 1; "code" := VStr "Analyze"; "location" := VStr "/a/b/c";
     "comment" := VStr ""; "dispositioned" := VStr "no" ]}.

(** The world after the issues of the scenario with one issue and its
    detail record have been fetched. *)
Definition snapshot_world : world :=
  (@get_klocwork_issues (scenario "issue-no-history" "detail-str-id")
     kw_api "b1" "proj" None [] empty_world).2.

(** The dictionary of [issue_no_history] after the merge of
    [detail_str_id]. *)
Definition merged_no_history : dict :=
  {[ "id" := VStr "1"; "code" := VStr "Analyze";
     "location" := VStr "/a/b/c"; "severity" := VStr "High" ]}.

(** The assembled record of [issue_2] merged with [detail_2]. *)
Definition assembled_2 : value :=
  VDict {[ "id" := VStr "2"; "code" := VStr "Fix";
           "location" := VStr "/a/b/d"; "severity" := VStr "Low";
           "comment" := VStr ""; "dispositioned" := VStr "no" ]}.

(** * Properties *)

Section Store.
Context `{Env}.

Lemma deref_dict_update (target source : nat) (w : world) (l : nat) :
  deref (dict_update target source w).2 l =
  if decide (l = target) then deref w source ∪ deref w target else deref w l.
Proof.
  unfold deref, dict_update; simpl.
  destruct (decide (l = target)) as [->|Hne].
  - by rewrite lookup_total_insert_eq.
  - by rewrite lookup_total_insert_ne.
Qed.

Lemma deref_source_stable (target source : nat) (w : world) :
  deref (dict_update target source w).2 source = deref w source.
Proof.
  rewrite deref_dict_update. case_decide as Heq; [|done].
  subst. apply (idemp (∪)).
Qed.

Lemma update_all_spec (params : list nat) (common : nat) (w : world) :
  (update_all params common w).1 = Ok () ∧
  calls (update_all params common w).2 = calls w ∧
  ∀ l, deref (update_all params common w).2 l =
       if decide (l ∈ params) then deref w common ∪ deref w l else deref w l.
Proof.
  revert w. induction params as [|p ps IH]; intros w.
  - split_and!; [done..|]. intros l.
    case_decide as Hin; [by apply elem_of_nil in Hin|done].
  - cbn [update_all]. unfold mbind, M_bind.
    destruct (dict_update p common w) as [[[]|e] w1] eqn:Hup;
      [|by unfold dict_update in Hup].
    destruct (IH w1) as (Hok & Hcalls & Hderef).
    assert (w1 = (dict_update p common w).2) as Hw1 by by rewrite Hup.
    split_and!; [done| |].
    + rewrite Hcalls, Hw1. done.
    + intros l. rewrite Hderef, Hw1, deref_source_stable, deref_dict_update.
      repeat case_decide; subst; rewrite ?elem_of_cons in *;
        try done; try tauto.
      by rewrite (assoc (∪)), (idemp (∪)).
Qed.

Lemma lookup_merged (c p : dict) (k : string) :
  (c ∪ p) !! k = match c !! k with Some v => Some v | None => p !! k end.
Proof. rewrite lookup_union. by destruct (c !! k), (p !! k). Qed.

Lemma fetch_world (url : string) (params common : nat) (w : world) :
  (fetch url params common w).2 =
  World (<[params := deref w common ∪ deref w params]> (heap w))
        (calls w ++ [(url, deref w common ∪ deref w params)]).
Proof.
  unfold fetch, mbind, M_bind, dict_update, request, lift, deref; simpl.
  rewrite lookup_total_insert_eq.
  by destruct (urlopen _ _).
Qed.

Lemma multifetch_world (url : string) (params : list nat) (common : nat)
    (w : world) :
  (multifetch url params common w).2 = (update_all params common w).2.
Proof.
  unfold multifetch, mbind, M_bind.
  destruct (update_all params common w) as [[[]|e] w1]; [|done].
  by case_match.
Qed.

Lemma multifetch_result (url : string) (params : list nat) (common : nat)
    (w : world) :
  (multifetch url params common w).1 =
  Ok (match params with
      | [] => EmptyList
      | _ :: _ =>
          PoolIter (length params `min` MAX_PARALLEL_FETCH_COUNT) url params
      end).
Proof.
  unfold multifetch, mbind, M_bind.
  pose proof (update_all_spec params common w) as (Hok & _).
  destruct (update_all params common w) as [[[]|e] w1]; [|done].
  destruct params as [|p ps]; [done|].
  unfold MAX_PARALLEL_FETCH_COUNT.
  replace (0 <? length (p :: ps) `min` 20)%nat with true; [done|].
  symmetry. apply Nat.ltb_lt. simpl. lia.
Qed.

(** C7: the request of [fetch] carries the per-request parameters updated
    with the common ones: it is the mapping logged with the call, a key of
    the common mapping has the common value in it, and any other key has
    what the per-request mapping had (so every key of either mapping is
    present); the mappings that [multifetch] prepares for its tasks are
    merged in the same way. *)
Theorem fetch_common_params_overwrite (url : string) (params common : nat)
    (w : world) :
  let merged := deref (fetch url params common w).2 params in
  calls (fetch url params common w).2 = calls w ++ [(url, merged)] ∧
  (∀ k v, deref w common !! k = Some v → merged !! k = Some v) ∧
  (∀ k, deref w common !! k = None → merged !! k = deref w params !! k) ∧
  (∀ k, is_Some (merged !! k) ↔
        is_Some (deref w common !! k) ∨ is_Some (deref w params !! k)) ∧
  ∀ (ps : list nat) (p : nat), p ∈ ps →
    let prepared := deref (multifetch url ps common w).2 p in
    (∀ k v, deref w common !! k = Some v → prepared !! k = Some v) ∧
    (∀ k, deref w common !! k = None → prepared !! k = deref w p !! k).
Proof.
  intros merged.
  assert (merged = deref w common ∪ deref w params) as Hm.
  { unfold merged. rewrite fetch_world. unfold deref at 1; simpl.
    by rewrite lookup_total_insert_eq. }
  split_and!.
  - by rewrite Hm, fetch_world.
  - intros k v Hk. by rewrite Hm, lookup_merged, Hk.
  - intros k Hk. by rewrite Hm, lookup_merged, Hk.
  - intros k. rewrite Hm, lookup_merged.
    destruct (deref w common !! k) eqn:Hc; [split; eauto|].
    split; [by right|]. intros [[? ?]|?]; done.
  - intros ps p Hp prepared.
    assert (prepared = deref w common ∪ deref w p) as Hp'.
    { unfold prepared. rewrite multifetch_world.
      destruct (update_all_spec ps common w) as (_ & _ & ->).
      by rewrite decide_True. }
    split.
    + intros k v Hk. by rewrite Hp', lookup_merged, Hk.
    + intros k Hk. by rewrite Hp', lookup_merged, Hk.
Qed.

(** C10: [fetch] and [multifetch] write into the dictionaries they are
    given.  After [fetch] the store differs from the one before only at the
    caller's [params] object, which now holds its old content updated with
    the common parameters; after [multifetch] exactly the objects in the
    list of parameters have been updated in that way, every other object is
    as before, and the tasks of the pool are those same objects.  In an
    updated object a key of the common mapping has the common value and
    any other key is unchanged. *)
Theorem fetch_multifetch_update_in_place (url : string) (params common : nat)
    (w : world) :
  heap (fetch url params common w).2 =
    <[params := deref w common ∪ deref w params]> (heap w) ∧
  (∀ k, (deref w common ∪ deref w params) !! k =
        match deref w common !! k with
        | Some v => Some v
        | None => deref w params !! k
        end) ∧
  ∀ ps : list nat,
    (∀ l, deref (multifetch url ps common w).2 l =
          if decide (l ∈ ps) then deref w common ∪ deref w l
          else deref w l) ∧
    (∀ threads u tasks,
        (multifetch url ps common w).1 = Ok (PoolIter threads u tasks) →
        tasks = ps).
Proof.
  split_and!.
  - by rewrite fetch_world.
  - intros k. apply lookup_merged.
  - intros ps. split.
    + intros l. rewrite multifetch_world.
      by destruct (update_all_spec ps common w) as (_ & _ & ->).
    + intros threads u tasks. rewrite multifetch_result.
      destruct ps; [done|]. by intros [= _ _ <-].
Qed.

End Store.

Section Strings.

Lemma occurs_at_cons (sub : string) (c : ascii) (s : string) (j : nat) :
  occurs_at sub (String c s) (S j) ↔ occurs_at sub s j.
Proof. unfold occurs_at; simpl. split; intros [? ?]; split; auto; lia. Qed.

Lemma occurs_at_0 (sub s : string) :
  occurs_at sub s 0 ↔ startswith s sub = true.
Proof.
  unfold occurs_at. destruct s; simpl; (split; [by intros [_ ?]|]);
    intros; (split; [lia|done]).
Qed.

Lemma occurs_at_empty (sub : string) (j : nat) :
  occurs_at sub "" j → j = 0.
Proof. unfold occurs_at; simpl. intros [? _]. lia. Qed.

Lemma rfind_from_None (off : nat) (s sub : string) (j : nat) :
  rfind_from off s sub = None → ¬ occurs_at sub s j.
Proof.
  revert off j. induction s as [|c s IH]; intros off j; cbn [rfind_from].
  - destruct (startswith "" sub) eqn:Hs; [done|]. intros _ Hj.
    pose proof (occurs_at_empty _ _ Hj) as ->.
    apply occurs_at_0 in Hj. congruence.
  - destruct (rfind_from (S off) s sub) eqn:Hr; [done|].
    destruct (startswith (String c s) sub) eqn:Hs; [done|].
    intros _ Hj. destruct j as [|j].
    + apply occurs_at_0 in Hj. congruence.
    + apply occurs_at_cons in Hj. by eapply IH.
Qed.

Lemma rfind_from_Some (off : nat) (s sub : string) (i : nat) :
  rfind_from off s sub = Some i →
  off ≤ i ∧ occurs_at sub s (i - off) ∧
  ∀ j, occurs_at sub s j → off + j ≤ i.
Proof.
  revert off i. induction s as [|c s IH]; intros off i; cbn [rfind_from].
  - destruct (startswith "" sub) eqn:Hs; [|done]. intros [= <-].
    split_and!; [lia| |].
    + rewrite Nat.sub_diag. by apply occurs_at_0.
    + intros j ->%occurs_at_empty. lia.
  - destruct (rfind_from (S off) s sub) as [i'|] eqn:Hr.
    + intros [= <-]. destruct (IH _ _ Hr) as (Hle & Hocc & Hmax).
      split_and!; [lia| |].
      * replace (i' - off) with (S (i' - S off)) by lia.
        by apply occurs_at_cons.
      * intros [|j] Hj; [lia|].
        apply occurs_at_cons, Hmax in Hj. lia.
    + destruct (startswith (String c s) sub) eqn:Hs; [|done]. intros [= <-].
      split_and!; [lia| |].
      * rewrite Nat.sub_diag. by apply occurs_at_0.
      * intros [|j] Hj; [lia|].
        apply occurs_at_cons in Hj. by eapply rfind_from_None in Hr.
Qed.

(** [rfind] returns [-1] exactly when there is no occurrence, and otherwise
    the index of the last one. *)
Lemma rfind_neg (s sub : string) :
  (rfind s sub < 0)%Z → ∀ j, ¬ occurs_at sub s j.
Proof.
  unfold rfind. destruct (rfind_from 0 s sub) eqn:Hr; [lia|].
  intros _ j. by eapply rfind_from_None.
Qed.

Lemma rfind_nonneg (s sub : string) :
  (0 ≤ rfind s sub)%Z →
  let pos := Z.to_nat (rfind s sub) in
  occurs_at sub s pos ∧ ∀ j, occurs_at sub s j → j ≤ pos.
Proof.
  unfold rfind. destruct (rfind_from 0 s sub) as [i|] eqn:Hr; [|lia].
  intros _. rewrite Nat2Z.id. simpl.
  destruct (rfind_from_Some _ _ _ _ Hr) as (_ & Hocc & Hmax).
  rewrite Nat.sub_0_r in Hocc. split; [done|]. intros j Hj.
  by apply Hmax in Hj.
Qed.

Lemma string_drop_drop (n m : nat) (s : string) :
  string_drop n (string_drop m s) = string_drop (m + n) s.
Proof.
  revert s. induction m as [|m IH]; intros s; [done|].
  destruct s as [|c s]; simpl; [by destruct n|]. apply IH.
Qed.

Lemma string_drop_length (n : nat) (s : string) :
  String.length (string_drop n s) = String.length s - n.
Proof.
  revert s. induction n as [|n IH]; intros s; simpl; [lia|].
  destruct s as [|c s]; simpl; [done|]. apply IH.
Qed.

(** An occurrence in a suffix is an occurrence in the whole string. *)
Lemma occurs_at_drop (sub s : string) (pos j : nat) :
  pos ≤ String.length s →
  occurs_at sub (string_drop pos s) j → occurs_at sub s (pos + j).
Proof.
  intros Hpos [Hj Hs]. rewrite string_drop_length in Hj.
  rewrite string_drop_drop in Hs. split; [lia|done].
Qed.

Lemma rfind_drop_last (s sub : string) :
  (0 ≤ rfind s sub)%Z →
  rfind (slice_from (rfind s sub) s) sub = 0%Z.
Proof.
  intros Hpos. destruct (rfind_nonneg _ _ Hpos) as [[Hlen Hocc] Hmax].
  unfold slice_from. set (pos := Z.to_nat (rfind s sub)) in *.
  assert (occurs_at sub (string_drop pos s) 0) as H0.
  { split; [lia|]. by rewrite string_drop_drop, Nat.add_0_r. }
  unfold rfind at 1.
  destruct (rfind_from 0 (string_drop pos s) sub) as [i|] eqn:Hr.
  - destruct (rfind_from_Some _ _ _ _ Hr) as (_ & Hi & _).
    rewrite Nat.sub_0_r in Hi.
    apply occurs_at_drop, Hmax in Hi; [|done]. f_equal. lia.
  - by eapply rfind_from_None in Hr.
Qed.

Lemma rfind_drop_none (s sub : string) (pos : nat) :
  pos ≤ String.length s →
  (rfind s sub < 0)%Z → (rfind (string_drop pos s) sub < 0)%Z.
Proof.
  intros Hpos Hneg. unfold rfind at 1.
  destruct (rfind_from 0 (string_drop pos s) sub) as [i|] eqn:Hr; [|lia].
  destruct (rfind_from_Some _ _ _ _ Hr) as (_ & Hi & _).
  apply occurs_at_drop in Hi; [|done]. by apply rfind_neg in Hi.
Qed.

End Strings.

Section StripPath.
Context `{Env}.

Lemma strip_path_skip (path : string) (skipped rest : list string) :
  (∀ r, r ∈ skipped → (rfind path (root_pattern r) < 0)%Z) →
  strip_path path (skipped ++ rest) = strip_path path rest.
Proof.
  induction skipped as [|r skipped IH]; intros Hneg; [done|].
  cbn [app strip_path].
  pose proof (Hneg r ltac:(by left)) as Hr.
  destruct (Z.leb_spec 0 (rfind path (root_pattern r))); [lia|].
  apply IH. intros r' Hr'. apply Hneg. by right.
Qed.

(** Either no root matches and the path is returned, or the first root
    whose pattern occurs decides where the result starts. *)
Lemma strip_path_cases (path : string) (roots : list string) :
  (strip_path path roots = path ∧
   ∀ r, r ∈ roots → (rfind path (root_pattern r) < 0)%Z) ∨
  ∃ skipped root rest,
    roots = skipped ++ root :: rest ∧
    (∀ r, r ∈ skipped → (rfind path (root_pattern r) < 0)%Z) ∧
    (0 ≤ rfind path (root_pattern root))%Z ∧
    strip_path path roots = slice_from (rfind path (root_pattern root)) path.
Proof.
  induction roots as [|root roots IH].
  - left. split; [done|]. by intros r ?%elem_of_nil.
  - cbn [strip_path].
    destruct (Z.leb_spec 0 (rfind path (root_pattern root))) as [Hpos|Hneg].
    + right. exists [], root, roots. split_and!; [done| |done..].
      by intros r ?%elem_of_nil.
    + destruct IH as [[Heq Hall]|(skipped & root' & rest & -> & Hsk & Hpos & Heq)].
      * left. split; [done|]. intros r [->|?]%elem_of_cons; auto.
      * right. exists (root :: skipped), root', rest.
        split_and!; [done| |done..].
        intros r [->|?]%elem_of_cons; auto.
Qed.

(** C8: [strip_path] is idempotent.  A path in which no root pattern
    (separator, normalised root, separator) occurs is returned unchanged;
    otherwise the result is the suffix of the path that starts at the last
    occurrence of the pattern of a root, so it begins with that pattern, and
    stripping it again with the same roots changes nothing. *)
Theorem strip_path_idempotent (path : string) (roots : list string) :
  strip_path (strip_path path roots) roots = strip_path path roots ∧
  ((∀ root j, root ∈ roots → ¬ occurs_at (root_pattern root) path j) →
   strip_path path roots = path) ∧
  (∀ root j, root ∈ roots → occurs_at (root_pattern root) path j →
   ∃ root' pos,
     root' ∈ roots ∧
     occurs_at (root_pattern root') path pos ∧
     (∀ j', occurs_at (root_pattern root') path j' → j' ≤ pos) ∧
     strip_path path roots = string_drop pos path ∧
     startswith (strip_path path roots) (root_pattern root') = true).
Proof.
  destruct (strip_path_cases path roots)
    as [[Heq Hall]|(skipped & root' & rest & Hroots & Hsk & Hpos & Heq)].
  - split_and!.
    + by rewrite !Heq.
    + done.
    + intros root j Hin Hocc. by apply Hall, rfind_neg with (j := j) in Hin.
  - destruct (rfind_nonneg _ _ Hpos) as [Hocc Hmax].
    set (pos := Z.to_nat (rfind path (root_pattern root'))) in *.
    assert (strip_path path roots = string_drop pos path) as Hres by done.
    split_and!.
    + rewrite Heq, Hroots, strip_path_skip.
      * cbn [strip_path]. by rewrite rfind_drop_last.
      * intros r Hr. apply rfind_drop_none; [apply Hocc|by apply Hsk].
    + intros Hnone. exfalso. apply (Hnone root' pos); [|done].
      rewrite Hroots. apply elem_of_app. right. by left.
    + intros _ _ _ _. exists root', pos. split_and!; [|done..|].
      * rewrite Hroots. apply elem_of_app. right. by left.
      * rewrite Hres. apply Hocc.
Qed.

End StripPath.

Section Token.
Context `{Env}.

Lemma get_token_scan_entry (host : string) (port : Z)
    (preferred_user : option string) (entry : string) (rest : list string)
    (c : credential) :
  parse_entry entry = Some c →
  get_token_scan (getfqdn host) port preferred_user (entry :: rest) =
  if entry_selected host port preferred_user c
  then Ok (Some (cred_token c), Some (cred_user c))
  else get_token_scan (getfqdn host) port preferred_user rest.
Proof.
  unfold parse_entry. intros Hparse. cbn [get_token_scan].
  destruct (split ";" (strip entry)) as [|h [|p [|u [|t values]]]];
    try done.
  injection Hparse as <-. unfold entry_selected, user_given, user_differs.
  cbn -[String.eqb str_int].
  destruct (String.eqb (getfqdn h) (getfqdn host)); [|done].
  cbn -[String.eqb str_int].
  destruct (String.eqb p (str_int port)); [|done].
  cbn -[String.eqb str_int].
  destruct preferred_user as [pu|]; [|done].
  destruct (String.eqb pu ""); [done|].
  cbn -[String.eqb str_int].
  by destruct (String.eqb u pu).
Qed.


End Token.

Section Merge.
Context `{Env}.

Lemma for_each_app {A S} (body : S → A → outcome S) (l1 l2 : list A)
    (acc : S) :
  for_each body (l1 ++ l2) acc = acc' ← for_each body l1 acc; for_each body l2 acc'.
Proof.
  revert acc. induction l1 as [|x l1 IH]; intros acc; [done|].
  cbn [app for_each]. unfold mbind, outcome_bind.
  destruct (body acc x); [apply IH|done].
Qed.

(** An invariant kept by every iteration holds when the loop ends; a
    condition every successful iteration establishes holds of every
    element. *)
Lemma for_each_invariant {A S} (body : S → A → outcome S)
    (Inv : S → Prop) (P : A → Prop) (l : list A) (acc acc' : S) :
  (∀ s x s', Inv s → body s x = Ok s' → Inv s' ∧ P x) →
  Inv acc → for_each body l acc = Ok acc' → Inv acc' ∧ Forall P l.
Proof.
  intros Hbody. revert acc. induction l as [|x l IH]; intros acc Hinv; simpl.
  - intros [= <-]. by split.
  - unfold mbind, outcome_bind. destruct (body acc x) as [s|e] eqn:Hb; [|done].
    destruct (Hbody _ _ _ Hinv Hb) as [Hinv' HP].
    intros Hrest. destruct (IH _ Hinv' Hrest). split; [done|]. by constructor.
Qed.

Lemma merge_record_Ok (t t' : table) (r : value) :
  merge_record t r = Ok t' → dom t' = dom t ∧ id_is_key t r.
Proof.
  unfold merge_record, mbind, outcome_bind.
  destruct (getitem r "id") as [id|] eqn:Hid; [|done].
  unfold table_getitem. destruct id as [| | |s| |]; try done.
  destruct (t !! s) as [issue|] eqn:Hs; [|done]. simpl.
  destruct (method_update issue r); [|done]. intros [= <-].
  split; [|by exists s].
  apply dom_insert_lookup_L. by rewrite Hs.
Qed.

Lemma merge_records_Ok (t t' : table) (records : list value) :
  for_each merge_record records t = Ok t' →
  dom t' = dom t ∧ Forall (id_is_key t) records.
Proof.
  apply (for_each_invariant merge_record
           (λ s, dom s = dom t) (id_is_key t)); [|done].
  intros s r s' Hs Hm. apply merge_record_Ok in Hm as [Hdom (k & Hk & Hin)].
  split; [congruence|]. exists k. split; [done|].
  apply elem_of_dom. rewrite <-Hs. by apply elem_of_dom.
Qed.

Lemma merge_response_Ok (t t' : table) (response : result) :
  merge_response t response = Ok t' →
  dom t' = dom t ∧ ∃ records, response = Ok records ∧
                              Forall (id_is_key t) records.
Proof.
  unfold merge_response, mbind, outcome_bind.
  destruct response as [records|]; [|done].
  intros Hm. apply merge_records_Ok in Hm as [? ?]. eauto.
Qed.

Lemma id_is_key_dom (t t' : table) (r : value) :
  dom t' = dom t → id_is_key t' r → id_is_key t r.
Proof.
  intros Hdom (k & Hk & Hin). exists k. split; [done|].
  apply elem_of_dom. rewrite <-Hdom. by apply elem_of_dom.
Qed.

Lemma merge_all_Ok (t t' : table) (responses : list result) :
  merge_all t responses = Ok t' →
  dom t' = dom t ∧
  Forall (λ response, ∃ records, response = Ok records ∧
                                 Forall (id_is_key t) records) responses.
Proof.
  apply (for_each_invariant merge_response (λ s, dom s = dom t)); [|done].
  intros s r s' Hs Hm.
  apply merge_response_Ok in Hm as [Hdom (records & -> & Hall)].
  split; [congruence|]. exists records. split; [done|].
  eapply Forall_impl; [done|]. intros ?. by apply id_is_key_dom.
Qed.

(** C4: a detail record whose id is not a key of the table makes the merge
    of the detail responses raise an exception; whenever the merge succeeds
    the table has exactly the keys it had after the search phase. *)
Theorem unknown_detail_id_raises (t : table) (responses : list result)
    (records : list value) (r : value) :
  Ok records ∈ responses → r ∈ records → ¬ id_is_key t r →
  raises (merge_all t responses) ∧
  ∀ responses' t', merge_all t responses' = Ok t' → dom t' = dom t.
Proof.
  intros Hin Hr Hunknown. split.
  - destruct (merge_all t responses) as [t'|e] eqn:Hm; [|by exists e].
    apply merge_all_Ok in Hm as [_ Hall].
    rewrite Forall_forall in Hall.
    destruct (Hall _ Hin) as (records' & [= <-] & Hknown).
    rewrite Forall_forall in Hknown. by apply Hknown in Hr.
  - intros responses' t' Hm. by apply merge_all_Ok in Hm as [? _].
Qed.

(** A successful merge also keeps every entry a dictionary. *)
Lemma merge_record_dicts (t t' : table) (r : value) :
  all_dicts t → merge_record t r = Ok t' → all_dicts t'.
Proof.
  unfold merge_record, mbind, outcome_bind. intros Hd.
  destruct (getitem r "id") as [id|]; [|done].
  destruct (table_getitem t id) as [[s issue]|]; [|done]. simpl.
  destruct issue as [| | | | |d]; try done.
  destruct r as [| | | | |dr]; try done. simpl. intros [= <-].
  intros k v. destruct (decide (k = s)) as [->|Hne].
  - rewrite lookup_insert_eq. intros [= <-]. eauto.
  - rewrite lookup_insert_ne by done. apply Hd.
Qed.

Lemma merge_all_dicts (t t' : table) (responses : list result) :
  all_dicts t → merge_all t responses = Ok t' → all_dicts t'.
Proof.
  intros Hd Hm.
  apply (for_each_invariant merge_response all_dicts (λ _, True)
           responses t t'); [|done..].
  intros s response s' Hs. unfold merge_response, mbind, outcome_bind.
  destruct response as [records|]; [|done]. intros Hrec. split; [|done].
  apply (for_each_invariant merge_record all_dicts (λ _, True)
           records s s'); [|done..].
  intros ? ? ? ? ?. split; [|done]. by eapply merge_record_dicts.
Qed.

Lemma getitem_Ok (v x : value) (key : string) :
  getitem v key = Ok x → ∃ d, v = VDict d ∧ d !! key = Some x.
Proof.
  destruct v as [| | | | |d]; try done. simpl.
  destruct (d !! key) eqn:Hk; [|done]. intros [= <-]. eauto.
Qed.

(** The loop over the search response: the keys of the table are the
    [str] of the ids, every entry is a dictionary, and every issue has its
    detail request. *)
Lemma index_issues_Ok (project : string) (issues_response : list value)
    (t0 t : table) (q0 q : list dict) :
  for_each (index_issue project) issues_response (t0, q0) = Ok (t, q) →
  (∀ k, is_Some (t !! k) ↔
        is_Some (t0 !! k) ∨
        ∃ issue id, issue ∈ issues_response ∧
                    getitem issue "id" = Ok id ∧ py_str id = Ok k) ∧
  (all_dicts t0 → all_dicts t) ∧
  ∃ reqs, q = q0 ++ reqs ∧
          Forall2 (λ issue req, ∃ id, getitem issue "id" = Ok id ∧
                                      req = details_request project id)
                  issues_response reqs.
Proof.
  revert t0 q0. induction issues_response as [|issue rest IH]; intros t0 q0.
  - simpl. intros [= <- <-]. split_and!.
    + intros k. split; [by left|]. intros [?|(? & ? & []%elem_of_nil & _)].
      done.
    + done.
    + exists []. by rewrite app_nil_r.
  - cbn [for_each]. unfold mbind at 1, outcome_bind at 1.
    destruct (index_issue project (t0, q0) issue) as [[t1 q1]|] eqn:Hidx;
      [|done].
    intros (Hkeys & Hdicts & reqs & -> & Hreqs)%IH.
    unfold index_issue, mbind, outcome_bind in Hidx.
    destruct (getitem issue "id") as [id|] eqn:Hid; [|done].
    destruct (py_str id) as [key|] eqn:Hkey; [|done].
    injection Hidx as <- <-. simpl in *.
    split_and!.
    + intros k. rewrite Hkeys. split.
      * intros [Hk|(i' & id' & Hin & ? & ?)].
        -- destruct (decide (key = k)) as [<-|Hne].
           ++ right. exists issue, id. split_and!; [by left|done..].
           ++ rewrite lookup_insert_ne in Hk by done. by left.
        -- right. exists i', id'. split_and!; [by right|done..].
      * intros [Hk|(i' & id' & [->|Hin]%elem_of_cons & Hid' & Hkey')].
        -- left. destruct (decide (key = k)) as [<-|Hne].
           ++ by rewrite lookup_insert_eq.
           ++ by rewrite lookup_insert_ne.
        -- left. rewrite Hid in Hid'. injection Hid' as <-.
           rewrite Hkey in Hkey'. injection Hkey' as <-.
           by rewrite lookup_insert_eq.
        -- right. eauto.
    + intros Hd0. apply Hdicts. intros k v.
      destruct (decide (key = k)) as [<-|Hne].
      * rewrite lookup_insert_eq. intros [= <-].
        apply getitem_Ok in Hid as (d & -> & _). eauto.
      * rewrite lookup_insert_ne by done. apply Hd0.
    + exists (details_request project id :: reqs).
      split; [by rewrite <-(assoc (++))|]. constructor; [eauto|done].
Qed.

(** C5, as the code has it: the keys of the Issue Table are exactly the
    [str] of the ids of the search records, there is one detail request
    per search record and it carries that record's id, and throughout the
    detail phase the lookup [issues_table[r['id']]] for a detail record [r]
    whose id is the string [str(id)] of a search record finds an entry and
    the merge of [r] succeeds; for a detail record whose id is not a string
    the lookup and the merge raise, [TypeError] when the id is a list or a
    dictionary and [KeyError] otherwise. *)
Theorem detail_merge_target_exists (project : string)
    (issues_response : list value) (t : table) (reqs : list dict) :
  for_each (index_issue project) issues_response (∅, []) = Ok (t, reqs) →
  (∀ k, is_Some (t !! k) ↔
        ∃ issue id, issue ∈ issues_response ∧
                    getitem issue "id" = Ok id ∧ py_str id = Ok k) ∧
  Forall2 (λ issue req, ∃ id, getitem issue "id" = Ok id ∧
                              req = details_request project id)
          issues_response reqs ∧
  (∀ issue id k responses t' r,
    issue ∈ issues_response → getitem issue "id" = Ok id →
    py_str id = Ok k →
    merge_all t responses = Ok t' →
    getitem r "id" = Ok (VStr k) →
    (∃ entry, table_getitem t' (VStr k) = Ok (k, entry)) ∧
    is_ok (merge_record t' r) = true) ∧
  (∀ responses t' r id,
    merge_all t responses = Ok t' →
    getitem r "id" = Ok id →
    (∀ s, id ≠ VStr s) →
    let e := match id with
             | VList _ | VDict _ => TypeError
             | _ => KeyError
             end in
    table_getitem t' id = Raise e ∧ merge_record t' r = Raise e).
Proof.
  intros (Hkeys & Hdicts & reqs' & -> & Hreqs)%index_issues_Ok.
  split_and!.
  - intros k. rewrite Hkeys, lookup_empty. split; [|by right].
    intros [[? [=]]|?]; done.
  - done.
  - intros issue id k responses t' r Hin Hid Hkey Hm Hr.
    assert (is_Some (t !! k)) as Hk. { apply Hkeys. right. eauto. }
    assert (all_dicts t') as Hd'.
    { apply (merge_all_dicts t t' responses); [|done].
      apply Hdicts. intros ? ?. by rewrite lookup_empty. }
    apply merge_all_Ok in Hm as [Hdom _].
    assert (is_Some (t' !! k)) as [entry Hentry].
    { apply elem_of_dom. rewrite Hdom. by apply elem_of_dom. }
    destruct (Hd' _ _ Hentry) as [d ->].
    unfold merge_record, mbind, outcome_bind. rewrite Hr. simpl.
    rewrite Hentry. split; [eauto|]. simpl.
    by apply getitem_Ok in Hr as (dr & -> & _).
  - intros responses t' r id _ Hr Hid e.
    unfold merge_record, mbind, outcome_bind. rewrite Hr.
    destruct id as [| | |s| |]; try done. by destruct (Hid s).
Qed.

End Merge.

Section Assembler.
Context `{Env}.

Lemma map_each_Ok {A B} (f : A → outcome B) (l : list A) (ys : list B) :
  map_each f l = Ok ys → Forall2 (λ x y, f x = Ok y) l ys.
Proof.
  revert ys. induction l as [|x l IH]; intros ys; simpl.
  - intros [= <-]. constructor.
  - unfold mbind, outcome_bind. destruct (f x) as [y|] eqn:Hf; [|done].
    destruct (map_each f l) as [ys'|]; [|done]. intros [= <-].
    constructor; [done|]. by apply IH.
Qed.

Lemma M_bind_Ok {A B} (m : M A) (f : A → M B) (w : world) (b : B) :
  ((m ≫= f) w).1 = Ok b → ∃ a w', m w = (Ok a, w') ∧ (f a w').1 = Ok b.
Proof.
  unfold mbind, M_bind. destruct (m w) as [[a|e] w']; [|done]. eauto.
Qed.

(** What an assembled issue is: the derived fields written over some
    dictionary [d] of the table. *)
Lemma derive_fields_Ok (project_root : option string) (issue out : value) :
  derive_fields project_root issue = Ok out →
  ∃ (d : dict) (latest comment : value) (disp location : string),
    issue = VDict d ∧
    getitem0 (default (VList [VDict ∅]) (d !! "history")) = Ok latest ∧
    method_get latest "comment" (VStr "") = Ok comment ∧
    (if truthy comment
     then ∃ code, d !! "code" = Some code ∧
                  disp = if value_eq_str code "Analyze" then "no" else "yes"
     else disp = "no") ∧
    out = VDict (<["location" := VStr location]>
                   (<["dispositioned" := VStr disp]>
                      (<["comment" := comment]> d))).
Proof.
  unfold derive_fields, mbind, outcome_bind.
  destruct issue as [| | | | |d]; try done. cbn [method_get].
  destruct (getitem0 _) as [latest|] eqn:Hlatest; [|done].
  destruct (method_get latest _ _) as [comment|] eqn:Hcomment; [|done].
  cbn [setitem getitem]. rewrite lookup_insert_eq.
  destruct (truthy comment) eqn:Htruthy; cbn [negb].
  - rewrite lookup_insert_ne by done.
    destruct (d !! "code") as [code|] eqn:Hcode; [|done].
    cbn [setitem getitem]. rewrite !lookup_insert_ne by done.
    destruct (d !! "location") as [loc|]; [|done].
    destruct (normpath_value loc) as [location|]; [|done].
    intros [= <-]. eexists d, latest, comment, _, _.
    split_and!; [done..| |done]. rewrite Htruthy. eauto.
  - cbn [setitem getitem]. rewrite !lookup_insert_ne by done.
    destruct (d !! "location") as [loc|]; [|done].
    destruct (normpath_value loc) as [location|]; [|done].
    intros [= <-]. eexists d, latest, comment, _, _.
    split_and!; [done..| |done]. by rewrite Htruthy.
Qed.

(** Every record [get_klocwork_issues] returns comes out of
    [derive_fields]. *)
Lemma get_klocwork_issues_derived (self : KlocworkWebApi)
    (build project : string) (project_root : option string)
    (sched : list label) (w : world) (issues : list value) :
  (get_klocwork_issues self build project project_root sched w).1 = Ok issues →
  ∀ issue, issue ∈ issues →
    ∃ entry, derive_fields project_root entry = Ok issue.
Proof.
  unfold get_klocwork_issues. intros Hrun.
  repeat (apply M_bind_Ok in Hrun as (? & ? & _ & Hrun)).
  unfold lift in Hrun. simpl in Hrun. apply map_each_Ok in Hrun.
  intros issue Hin.
  destruct (proj1 (list_elem_of_lookup _ _) Hin) as [i Hi].
  destruct (Forall2_lookup_r _ _ _ _ _ Hrun Hi) as (entry & _ & ?). eauto.
Qed.

Lemma derived_comment (project_root : option string) (entry : value)
    (o : dict) :
  derive_fields project_root entry = Ok (VDict o) →
  (o !! "history" = None → o !! "comment" = Some (VStr "")) ∧
  (∀ e rest, o !! "history" = Some (VList (VDict e :: rest)) →
             o !! "comment" = Some (default (VStr "") (e !! "comment"))).
Proof.
  intros (d & latest & comment & disp & location & -> & Hlatest & Hcomment
          & _ & [= ->])%derive_fields_Ok.
  rewrite !lookup_insert_ne by done. rewrite lookup_insert_eq.
  split.
  - intros Hh. rewrite Hh in Hlatest. injection Hlatest as <-.
    by injection Hcomment as <-.
  - intros e rest Hh. rewrite Hh in Hlatest. injection Hlatest as <-.
    by injection Hcomment as <-.
Qed.

Lemma value_eq_str_true (v : value) (s : string) :
  value_eq_str v s = true ↔ v = VStr s.
Proof.
  destruct v; simpl; try (split; [done|by intros [=]]).
  rewrite String.eqb_eq. split; [by intros ->|by intros [=]].
Qed.

Lemma derived_disposition (project_root : option string) (entry : value)
    (o : dict) :
  derive_fields project_root entry = Ok (VDict o) →
  ∃ comment,
    o !! "comment" = Some comment ∧
    (o !! "dispositioned" = Some (VStr "no") ∨
     o !! "dispositioned" = Some (VStr "yes")) ∧
    (o !! "dispositioned" = Some (VStr "no") ↔
     truthy comment = false ∨ o !! "code" = Some (VStr "Analyze")).
Proof.
  intros (d & latest & comment & disp & location & -> & _ & _
          & Hdisp & [= ->])%derive_fields_Ok.
  exists comment.
  rewrite (lookup_insert_ne _ "location" "comment") by done.
  rewrite (lookup_insert_ne _ "dispositioned" "comment") by done.
  rewrite (lookup_insert_ne _ "location" "dispositioned") by done.
  rewrite (lookup_insert_ne _ "location" "code") by done.
  rewrite (lookup_insert_ne _ "dispositioned" "code") by done.
  rewrite (lookup_insert_ne _ "comment" "code") by done.
  rewrite !lookup_insert_eq.
  split; [done|].
  destruct (truthy comment).
  - destruct Hdisp as (code & Hcode & ->). rewrite Hcode.
    destruct (value_eq_str code "Analyze") eqn:Heq.
    + apply value_eq_str_true in Heq as ->. split; [by left|]. split; auto.
    + split; [by right|]. split; [done|]. intros [?|[= ->]]; done.
  - subst disp. split; [by left|]. split; auto.
Qed.

End Assembler.

Section Pool.
Context `{Env}.

Lemma helper_fetch_eq (url : string) (l : nat) (w : world) :
  MultiFetchHelper_fetch url l w =
  (fetch_result url (deref w l),
   World (heap w) (calls w ++ [(url, deref w l)])).
Proof.
  unfold MultiFetchHelper_fetch, fetch_result, mbind, M_bind, outcome_bind,
    request, lift.
  by destruct (urlopen url (deref w l)).
Qed.

Lemma fetch_eq (url : string) (p c : nat) (w : world) :
  fetch url p c w =
  (fetch_result url (deref w c ∪ deref w p),
   World (<[p := deref w c ∪ deref w p]> (heap w))
         (calls w ++ [(url, deref w c ∪ deref w p)])).
Proof.
  unfold fetch, fetch_result, mbind, M_bind, outcome_bind, dict_update,
    request, lift, deref; simpl.
  rewrite lookup_total_insert_eq.
  by destruct (urlopen _ _).
Qed.

Lemma length_busy_le (ws : list (option (nat * result))) :
  length (omap id ws) ≤ length ws.
Proof. induction ws as [|[x|] ws IH]; csimpl; lia. Qed.

Lemma busy_take (ws : list (option (nat * result))) (k : nat)
    (x : nat * result) :
  ws !! k = Some None → omap id (<[k := Some x]> ws) ≡ₚ x :: omap id ws.
Proof.
  revert k. induction ws as [|[y|] ws IH]; intros [|k] Hk; try done; csimpl.
  - by rewrite (IH k Hk), Permutation_swap.
  - by apply IH.
Qed.

Lemma busy_finish (ws : list (option (nat * result))) (k : nat)
    (x : nat * result) :
  ws !! k = Some (Some x) → omap id ws ≡ₚ x :: omap id (<[k := None]> ws).
Proof.
  revert k. induction ws as [|[y|] ws IH]; intros [|k] Hk; try done; csimpl.
  - by injection Hk as ->.
  - simpl in Hk. by rewrite (IH k Hk), Permutation_swap.
  - by apply IH.
Qed.

Lemma pool_step_inv (url : string) (tasks : list nat) (w0 : world)
    (l : label) (s s' : pool * world) :
  pool_inv url tasks w0 s → pool_step l s = Some s' →
  pool_inv url tasks w0 s'.
Proof.
  destruct s as [p w]. intros (Hheap & Hurl & taken & Htasks & Hres & Hcalls).
  simpl in *. unfold pool_step.
  destruct l as [k|k|].
  - destruct (workers p !! k) as [[?|]|] eqn:Hk; try done.
    destruct (todo p) as [|[i params] rest] eqn:Htodo; [done|].
    rewrite helper_fetch_eq. intros [= <-].
    split_and!; [done..|]. exists (taken ++ [(i, params)]). simpl.
    split_and!.
    + by rewrite Htasks, <-(assoc (++)).
    + unfold busy; simpl. rewrite busy_take by done.
      rewrite fmap_app; simpl. unfold deref. rewrite Hheap, Hurl.
      rewrite <-Hres. unfold busy. rewrite !(assoc (++)).
      rewrite <-Permutation_middle. apply Permutation_cons_append.
    + rewrite Hcalls, fmap_app, (assoc (++)); simpl.
      unfold deref. by rewrite Hheap, Hurl.
  - destruct (workers p !! k) as [[x|]|] eqn:Hk; try done.
    intros [= <-]. split_and!; [done..|]. exists taken. simpl.
    split_and!; [done| |done].
    rewrite <-Hres. unfold busy; simpl.
    rewrite (busy_finish (workers p) k x) by done.
    by rewrite <-!(assoc (++)).
  - destruct (outbox p) as [|x rest] eqn:Hout; [done|].
    intros [= <-]. split_and!; [done..|]. exists taken. simpl.
    split_and!; [done| |done].
    rewrite <-Hres, <-(assoc (++)). by simpl.
Qed.

Lemma pool_inv_init (threads : nat) (url : string) (tasks : list nat)
    (w0 : world) :
  pool_inv url tasks w0 (init_pool threads url tasks, w0).
Proof.
  split_and!; [done..|]. exists []. simpl.
  split_and!; [done| |by rewrite app_nil_r].
  unfold busy; simpl. by induction threads.
Qed.

Lemma run_schedule_inv (url : string) (tasks : list nat) (w0 : world)
    (sched : list label) (s : pool * world) :
  pool_inv url tasks w0 s → pool_inv url tasks w0 (run_schedule sched s).
Proof.
  revert s. induction sched as [|l sched IH]; intros s Hinv; [done|].
  apply IH. unfold step_or_stay.
  destruct (pool_step l s) as [s'|] eqn:Hstep; [|done].
  by eapply pool_step_inv.
Qed.

Lemma pool_step_shape (l : label) (s s' : pool * world) :
  pool_step l s = Some s' →
  length (workers s'.1) = length (workers s.1) ∧
  (todo s.1 = [] → todo s'.1 = []) ∧
  S (remaining s'.1) = remaining s.1.
Proof.
  destruct s as [p w]. unfold pool_step, remaining. simpl.
  destruct l as [k|k|].
  - destruct (workers p !! k) as [[?|]|] eqn:Hk; try done.
    destruct (todo p) as [|[i params] rest] eqn:Htodo; [done|].
    rewrite helper_fetch_eq. intros [= <-]. simpl.
    rewrite length_insert. split_and!; [done..|].
    unfold busy; simpl.
    pose proof (Permutation_length (busy_take (workers p) k (i, fetch_result (pool_url p) (deref w params)) Hk)) as Hlen.
    simpl in Hlen. lia.
  - destruct (workers p !! k) as [[x|]|] eqn:Hk; try done.
    intros [= <-]. simpl. rewrite length_insert. split_and!; [done..|].
    unfold busy; simpl.
    pose proof (Permutation_length (busy_finish (workers p) k x Hk)) as Hlen.
    rewrite length_app. simpl in *. lia.
  - destruct (outbox p) as [|x rest] eqn:Hout; [done|].
    intros [= <-]. simpl. split_and!; [done..|]. unfold busy; simpl. lia.
Qed.

Lemma run_schedule_shape (sched : list label) (s : pool * world) :
  length (workers (run_schedule sched s).1) = length (workers s.1) ∧
  (todo s.1 = [] → todo (run_schedule sched s).1 = []).
Proof.
  revert s. induction sched as [|l sched IH]; intros s; [done|].
  simpl. destruct (IH (step_or_stay s l)) as [Hlen Htodo].
  unfold step_or_stay in *.
  destruct (pool_step l s) as [s'|] eqn:Hstep; [|done].
  apply pool_step_shape in Hstep as (Hlen' & Htodo' & _). simpl in *.
  split; [congruence|auto].
Qed.

Lemma first_busy_Some (k0 k : nat) (ws : list (option (nat * result))) :
  first_busy k0 ws = Some k → ∃ x, ws !! (k - k0) = Some (Some x) ∧ k0 ≤ k.
Proof.
  revert k0. induction ws as [|[x|] ws IH]; intros k0; simpl; [done| |].
  - intros [= <-]. exists x. by rewrite Nat.sub_diag.
  - intros (x & Hx & Hle)%IH. exists x. split; [|lia].
    by replace (k - k0) with (S (k - S k0)) by lia.
Qed.

Lemma first_busy_None (k0 : nat) (ws : list (option (nat * result))) :
  first_busy k0 ws = None → omap id ws = [].
Proof.
  revert k0. induction ws as [|[x|] ws IH]; intros k0; csimpl; [done..|].
  apply IH.
Qed.

Lemma first_idle_Some (k0 k : nat) (ws : list (option (nat * result))) :
  first_idle k0 ws = Some k → ws !! (k - k0) = Some None ∧ k0 ≤ k.
Proof.
  revert k0. induction ws as [|[x|] ws IH]; intros k0; simpl; [done| |].
  - intros [Hx Hle]%IH. split; [|lia].
    by replace (k - k0) with (S (k - S k0)) by lia.
  - intros [= <-]. by rewrite Nat.sub_diag.
Qed.

Lemma first_idle_None (k0 : nat) (ws : list (option (nat * result))) :
  first_idle k0 ws = None → length (omap id ws) = length ws.
Proof.
  revert k0. induction ws as [|[x|] ws IH]; intros k0; csimpl; [done| |done].
  intros ?%IH. lia.
Qed.

Lemma next_label_enabled (p : pool) (w : world) (l : label) :
  next_label p = Some l → is_Some (pool_step l (p, w)).
Proof.
  unfold next_label, pool_step.
  destruct (outbox p) as [|x rest] eqn:Hout; [|by intros [= <-]].
  destruct (first_busy 0 (workers p)) as [k|] eqn:Hbusy.
  - intros [= <-]. apply first_busy_Some in Hbusy as (x & Hx & _).
    rewrite Nat.sub_0_r in Hx. by rewrite Hx.
  - destruct (todo p) as [|[i params] rest] eqn:Htodo; [done|].
    destruct (first_idle 0 (workers p)) as [k|] eqn:Hidle; [|done].
    intros [= <-]. apply first_idle_Some in Hidle as [Hk _].
    rewrite Nat.sub_0_r in Hk. rewrite Hk, helper_fetch_eq. done.
Qed.

Lemma next_label_None (p : pool) :
  next_label p = None → todo p = [] ∨ 0 < length (workers p) →
  complete p = true.
Proof.
  unfold next_label, complete, busy.
  destruct (outbox p) as [|x rest] eqn:Hout; [|done].
  destruct (first_busy 0 (workers p)) as [k|] eqn:Hbusy; [done|].
  apply first_busy_None in Hbusy. rewrite Hbusy.
  destruct (todo p) as [|t rest] eqn:Htodo; [done|].
  destruct (first_idle 0 (workers p)) as [k|] eqn:Hidle; [done|].
  apply first_idle_None in Hidle. rewrite Hbusy in Hidle. simpl in Hidle.
  intros _ [?|?]; [done|lia].
Qed.

(** The fixed policy completes any pool that has a worker, by steps of the
    transition system. *)
Lemma drain_complete (fuel : nat) (s : pool * world) :
  remaining s.1 ≤ fuel → todo s.1 = [] ∨ 0 < length (workers s.1) →
  complete (drain fuel s).1 = true ∧
  ∃ sched, drain fuel s = run_schedule sched s.
Proof.
  revert s. induction fuel as [|fuel IH]; intros s Hfuel Hlive.
  - split; [|by exists []]. cbn [drain]. unfold remaining, complete in *.
    destruct (todo s.1), (busy s.1), (outbox s.1); simpl in *; done || lia.
  - cbn [drain]. destruct (next_label s.1) as [l|] eqn:Hl.
    + destruct s as [p w].
      destruct (next_label_enabled p w l Hl) as [s' Hstep].
      assert (step_or_stay (p, w) l = s') as Hs'.
      { unfold step_or_stay. by rewrite Hstep. }
      rewrite Hs'.
      pose proof (pool_step_shape _ _ _ Hstep) as (Hlen & Htodo & Hrem).
      destruct (IH s') as [Hc [sched Hs]]; [lia| |].
      * destruct Hlive as [?|?]; [left; auto|right; lia].
      * split; [done|]. exists (l :: sched).
        cbn [run_schedule foldl]. by rewrite Hs'.
    + split; [by apply next_label_None|by exists []].
Qed.

Lemma imap_pair_snd {A B} (g : nat → B) (l : list A) :
  (imap (λ i x, (g i, x)) l).*2 = l.
Proof.
  revert g. induction l as [|x l IH]; intros g; [done|].
  simpl. f_equal. apply (IH (g ∘ S)).
Qed.

Lemma complete_inv (p : pool) :
  complete p = true → todo p = [] ∧ busy p = [] ∧ outbox p = [].
Proof. unfold complete. by destruct (todo p), (busy p), (outbox p). Qed.

(** In a complete pool every task was requested once, in submission order,
    and the results handed over are those of the tasks in some order. *)
Lemma pool_inv_complete (url : string) (tasks : list nat) (w0 : world)
    (s : pool * world) :
  pool_inv url tasks w0 s → complete s.1 = true →
  s.2 = World (heap w0)
              (calls w0 ++ ((λ p, (url, deref w0 p)) <$> tasks)) ∧
  (yielded s.1).*2 ≡ₚ (λ p, fetch_result url (deref w0 p)) <$> tasks.
Proof.
  destruct s as [p [h cs]].
  intros (Hheap & Hurl & taken & Htasks & Hres & Hcalls)
         (Htodo & Hbusy & Hout)%complete_inv. simpl in *.
  rewrite Htodo, app_nil_r in Htasks. subst taken.
  rewrite Hbusy, Hout, !app_nil_r in Hres.
  assert (∀ {C} (f : nat → C),
            (λ ip : nat * nat, f ip.2) <$> imap (λ i p, (i, p)) tasks
            = f <$> tasks) as Hmap.
  { intros C f. rewrite <-(imap_pair_snd id tasks) at 2.
    by rewrite <-list_fmap_compose. }
  split.
  - f_equal; [done|]. rewrite Hcalls. f_equal.
    exact (Hmap _ (λ p, (url, deref w0 p))).
  - rewrite Hres, <-list_fmap_compose.
    by rewrite <-(Hmap _ (λ p, fetch_result url (deref w0 p))).
Qed.

Lemma update_all_heap (params : list nat) (common : nat) (w w' : world) :
  heap w = heap w' →
  heap (update_all params common w).2 = heap (update_all params common w').2.
Proof.
  revert w w'. induction params as [|p ps IH]; intros w w' Hheap; [done|].
  cbn [update_all]. unfold mbind, M_bind, dict_update, deref. simpl.
  apply IH. simpl. by rewrite Hheap.
Qed.

Lemma serial_fetch_spec (url : string) (params : list nat) (common : nat)
    (w : world) :
  let w1 := (update_all params common w).2 in
  serial_fetch url params common w =
  ((λ p, fetch_result url (deref w1 p)) <$> params,
   World (heap w1) (calls w ++ ((λ p, (url, deref w1 p)) <$> params))).
Proof.
  revert w. induction params as [|p ps IH]; intros w w1.
  - simpl. rewrite app_nil_r. by destruct w.
  - cbn [serial_fetch]. rewrite fetch_eq.
    set (w' := World (<[p := deref w common ∪ deref w p]> (heap w))
                     (calls w ++ [(url, deref w common ∪ deref w p)])).
    rewrite (IH w'). clear IH.
    assert (heap (update_all ps common w').2 = heap w1) as Hheap.
    { unfold w1. cbn [update_all]. unfold mbind, M_bind, dict_update. simpl.
      by apply update_all_heap. }
    assert (∀ l, deref (update_all ps common w').2 l = deref w1 l) as Hderef.
    { intros l. unfold deref. by rewrite Hheap. }
    assert (deref w common ∪ deref w p = deref w1 p) as Hp.
    { unfold w1. destruct (update_all_spec (p :: ps) common w) as (_ & _ & ->).
      rewrite decide_True; [done|by left]. }
    set (wu := (update_all ps common w').2) in *.
    rewrite Hheap, !fmap_cons, <-Hp.
    rewrite (list_fmap_ext (λ q, fetch_result url (deref wu q))
                           (λ q, fetch_result url (deref w1 q)) ps)
      by (intros; by rewrite Hderef).
    rewrite (list_fmap_ext (λ q, (url, deref wu q))
                           (λ q, (url, deref w1 q)) ps)
      by (intros; by rewrite Hderef).
    subst w'. cbn [calls]. by rewrite <-(assoc (++)).
Qed.

Lemma run_schedule_app (sched sched' : list label) (s : pool * world) :
  run_schedule (sched ++ sched') s = run_schedule sched' (run_schedule sched s).
Proof. apply foldl_app. Qed.

Lemma init_pool_live (threads : nat) (url : string) (tasks : list nat) :
  (tasks = [] ∨ 0 < threads) →
  todo (init_pool threads url tasks) = [] ∨
  0 < length (workers (init_pool threads url tasks)).
Proof.
  intros [->|?]; [by left|right]. simpl. by rewrite length_replicate.
Qed.

(** Every schedule can be continued until the pool is complete. *)
Lemma run_schedule_completable (threads : nat) (url : string)
    (tasks : list nat) (w0 : world) (sched : list label) :
  (tasks = [] ∨ 0 < threads) →
  ∃ sched',
    complete (run_schedule (sched ++ sched')
                (init_pool threads url tasks, w0)).1 = true.
Proof.
  intros Hlive%(init_pool_live _ url).
  set (s0 := (init_pool threads url tasks, w0)) in *.
  destruct (run_schedule_shape sched s0) as [Hlen Htodo].
  destruct (drain_complete (remaining (run_schedule sched s0).1)
              (run_schedule sched s0)) as [Hc [sched' Hs]]; [done| |].
  - destruct Hlive as [?|?]; [left; auto|right; by rewrite Hlen].
  - exists sched'. by rewrite run_schedule_app, <-Hs.
Qed.

(** C2: [multifetch] over [k] parameter mappings.  With [k = 0] it returns
    the empty list and leaves the world as it was: no pool, no request.
    Otherwise it returns the iterator of a pool of [min(k, 20)] workers
    over the [k] mappings.  Whatever the schedule, the pool keeps its
    [min(k, 20)] workers, so at most that many tasks run at a time, and at
    most [k] requests are logged; every run can be continued until all
    results are handed over; and then exactly [k] requests have been
    issued, one for each mapping, the results handed over are, up to order,
    those of issuing the same requests one after the other with [fetch],
    and the store and the log are the same as after those serial calls. *)
Theorem multifetch_parallel_fetch (url : string) (params : list nat)
    (common : nat) (w : world) :
  let k := length params in
  let threads := k `min` MAX_PARALLEL_FETCH_COUNT in
  let w1 := (multifetch url params common w).2 in
  (k = 0 → multifetch url params common w = (Ok EmptyList, w)) ∧
  (0 < k →
   (multifetch url params common w).1 = Ok (PoolIter threads url params) ∧
   calls w1 = calls w) ∧
  ∀ sched : list label,
    let s := run_schedule sched (init_pool threads url params, w1) in
    length (workers s.1) = threads ∧
    length (busy s.1) ≤ threads ∧
    length (calls s.2) ≤ length (calls w) + k ∧
    (∃ sched',
        complete (run_schedule (sched ++ sched')
                    (init_pool threads url params, w1)).1 = true) ∧
    (complete s.1 = true →
     length (calls s.2) = length (calls w) + k ∧
     (yielded s.1).*2 ≡ₚ (serial_fetch url params common w).1 ∧
     s.2 = (serial_fetch url params common w).2).
Proof.
  intros k threads w1.
  assert (calls w1 = calls w) as Hcalls1.
  { unfold w1. rewrite multifetch_world.
    by destruct (update_all_spec params common w) as (_ & -> & _). }
  split_and!.
  - intros Hk. subst k. destruct params; [|done]. by destruct w.
  - intros Hk. split; [|done]. rewrite multifetch_result.
    subst threads k. destruct params; [simpl in Hk; lia|done].
  - intros sched s.
    pose proof (run_schedule_inv url params w1 sched _
                  (pool_inv_init threads url params w1)) as Hinv.
    fold s in Hinv.
    destruct (run_schedule_shape sched (init_pool threads url params, w1))
      as [Hlen _]. fold s in Hlen. simpl in Hlen.
    rewrite length_replicate in Hlen.
    split_and!.
    + done.
    + rewrite <-Hlen. apply length_busy_le.
    + destruct Hinv as (_ & _ & taken & Htasks & _ & ->).
      rewrite length_app, length_fmap, Hcalls1.
      apply (f_equal length) in Htasks.
      rewrite length_imap, length_app in Htasks. fold k in Htasks. lia.
    + apply run_schedule_completable. unfold threads, k.
      destruct params; [by left|right]. unfold MAX_PARALLEL_FETCH_COUNT.
      simpl. lia.
    + intros Hc. destruct (pool_inv_complete _ _ _ _ Hinv Hc) as [Hw Hy].
      rewrite serial_fetch_spec. simpl.
      unfold w1 in Hw, Hy. rewrite multifetch_world in Hw, Hy.
      rewrite Hw, Hy. simpl.
      destruct (update_all_spec params common w) as (_ & -> & _).
      split_and!; [|done..].
      by rewrite length_app, length_fmap.
Qed.

(** The loop over the iterator sees the results of the tasks in some
    order, and leaves one request per task in the log. *)
Lemma iterate_pool (sched : list label) (threads : nat) (url : string)
    (tasks : list nat) (w : world) :
  (tasks = [] ∨ 0 < threads) →
  ∃ responses,
    iterate sched (PoolIter threads url tasks) w =
      (Ok responses,
       World (heap w) (calls w ++ ((λ p, (url, deref w p)) <$> tasks))) ∧
    responses ≡ₚ (λ p, fetch_result url (deref w p)) <$> tasks.
Proof.
  intros Hlive%(init_pool_live _ url). unfold iterate.
  set (s0 := (init_pool threads url tasks, w)) in *.
  set (s := run_schedule sched s0).
  destruct (run_schedule_shape sched s0) as [Hlen Htodo]. fold s in Hlen, Htodo.
  destruct (drain_complete (remaining s.1) s) as [Hc [sched' Hs]]; [done| |].
  { destruct Hlive as [?|?]; [left; auto|right; by rewrite Hlen]. }
  pose proof (run_schedule_inv url tasks w (sched ++ sched') _
                (pool_inv_init threads url tasks w)) as Hinv.
  rewrite run_schedule_app in Hinv. fold s0 s in Hinv. rewrite <-Hs in Hinv.
  destruct (pool_inv_complete _ _ _ _ Hinv Hc) as [Hw Hy].
  eexists. split; [|exact Hy]. by rewrite Hw.
Qed.

End Pool.

Section DetailPhase.
Context `{Env}.

(** The merges read and write the objects of the store only. *)
Lemma merge_record_at_heap (t : gmap string nat) (r : value) (w w2 : world) :
  heap w2 = heap w →
  (merge_record_at t r w2).1 = (merge_record_at t r w).1 ∧
  heap (merge_record_at t r w2).2 = heap (merge_record_at t r w).2 ∧
  calls (merge_record_at t r w2).2 = calls w2.
Proof.
  intros Hheap. unfold merge_record_at, mbind, M_bind, lift.
  destruct (outcome_bind _ _ _ (getitem r "id")) as [l|e]; [|done].
  destruct r as [| | | | |dr]; try done. simpl.
  unfold deref. by rewrite Hheap.
Qed.

Lemma merge_records_at_heap (t : gmap string nat) (records : list value)
    (w w2 : world) :
  heap w2 = heap w →
  (merge_records_at t records w2).1 = (merge_records_at t records w).1 ∧
  heap (merge_records_at t records w2).2
    = heap (merge_records_at t records w).2 ∧
  calls (merge_records_at t records w2).2 = calls w2.
Proof.
  revert w w2. induction records as [|r records IH]; intros w w2 Hheap.
  - done.
  - cbn [merge_records_at]. unfold mbind, M_bind.
    destruct (merge_record_at_heap t r w w2 Hheap) as (Hres & Hh & Hc).
    destruct (merge_record_at t r w2) as [res2 w2'].
    destruct (merge_record_at t r w) as [res w']. simpl in *. subst res2.
    destruct res as [[]|e]; [|done].
    destruct (IH w' w2' Hh) as (? & ? & Hc'). by rewrite Hc' .
Qed.

Lemma merge_response_at_heap (t : gmap string nat) (response : result)
    (w w2 : world) :
  heap w2 = heap w →
  (merge_response_at t response w2).1 = (merge_response_at t response w).1 ∧
  heap (merge_response_at t response w2).2
    = heap (merge_response_at t response w).2 ∧
  calls (merge_response_at t response w2).2 = calls w2.
Proof.
  intros Hheap. unfold merge_response_at, mbind, M_bind, lift.
  destruct response as [records|e]; [|done].
  by apply merge_records_at_heap.
Qed.

Lemma merge_all_at_snoc (t : gmap string nat) (responses : list result)
    (r : result) (w : world) :
  merge_all_at t (responses ++ [r]) w =
  (merge_all_at t responses;; merge_response_at t r) w.
Proof.
  revert w. induction responses as [|r' responses IH]; intros w.
  - cbn [app merge_all_at]. unfold mbind, M_bind, mret, M_ret.
    by destruct (merge_response_at t r w) as [[[]|] ?].
  - cbn [app merge_all_at]. unfold mbind, M_bind.
    destruct (merge_response_at t r' w) as [[[]|] w']; [|done].
    rewrite IH. done.
Qed.

Lemma detail_step_cases (l : label) (s s' : detail_state) :
  detail_step l s = Some s' →
  ds_table s' = ds_table s ∧
  match l with
  | Take k =>
      ∃ i, event_of l (ds_pool s) = Some (Started i) ∧
           outbox (ds_pool s') = outbox (ds_pool s) ∧
           yielded (ds_pool s') = yielded (ds_pool s) ∧
           heap (ds_world s') = heap (ds_world s) ∧
           ds_loop s' = ds_loop s
  | Finish k =>
      ∃ i r, event_of l (ds_pool s) = Some (Finished i) ∧
             outbox (ds_pool s') = outbox (ds_pool s) ++ [(i, r)] ∧
             yielded (ds_pool s') = yielded (ds_pool s) ∧
             heap (ds_world s') = heap (ds_world s) ∧
             ds_loop s' = ds_loop s
  | Next =>
      ∃ i r, event_of l (ds_pool s) = Some (Merged i) ∧
             outbox (ds_pool s) = (i, r) :: outbox (ds_pool s') ∧
             yielded (ds_pool s') = yielded (ds_pool s) ++ [(i, r)] ∧
             ds_loop s = Ok () ∧
             (ds_loop s', ds_world s')
               = merge_response_at (ds_table s) r (ds_world s)
  end.
Proof.
  destruct s as [p w t loop]. unfold detail_step, pool_step, event_of. simpl.
  destruct l as [k|k|].
  - destruct (workers p !! k) as [[?|]|]; try done.
    destruct (todo p) as [|[i params] rest]; [done|].
    rewrite helper_fetch_eq. intros [= <-]. split; [done|]. by exists i.
  - destruct (workers p !! k) as [[[i r]|]|]; try done.
    intros [= <-]. split; [done|]. by exists i, r.
  - destruct loop as [[]|]; [|done].
    destruct (outbox p) as [|[i r] rest]; [done|]. simpl.
    rewrite last_snoc.
    destruct (merge_response_at t r w) as [res w'] eqn:Hm.
    intros [= <-]. split; [done|]. by exists i, r.
Qed.

(** The store is at any time what the caller's loop has made of the
    initial one with the results it has received: no other step writes to
    it. *)
Lemma detail_run_store (t : gmap string nat) (w0 : world)
    (sched : list label) (s s' : detail_state) :
  ds_table s = t →
  ds_loop s = (merge_all_at t (yielded (ds_pool s)).*2 w0).1 →
  heap (ds_world s) = heap (merge_all_at t (yielded (ds_pool s)).*2 w0).2 →
  detail_run sched s = Some s' →
  ds_table s' = t ∧
  ds_loop s' = (merge_all_at t (yielded (ds_pool s')).*2 w0).1 ∧
  heap (ds_world s') = heap (merge_all_at t (yielded (ds_pool s')).*2 w0).2.
Proof.
  revert s. induction sched as [|l sched IH]; intros s Ht Hloop Hheap; simpl.
  - by intros [= <-].
  - destruct (detail_step l s) as [s1|] eqn:Hstep; [|done].
    apply detail_step_cases in Hstep as [Ht1 Hstep].
    rewrite Ht in Ht1.
    destruct l as [k|k|].
    + destruct Hstep as (i & _ & _ & Hy & Hh & Hl).
      apply IH; [done|by rewrite Hy, Hl|by rewrite Hy, Hh].
    + destruct Hstep as (i & r & _ & _ & Hy & Hh & Hl).
      apply IH; [done|by rewrite Hy, Hl|by rewrite Hy, Hh].
    + destruct Hstep as (i & r & _ & _ & Hy & Hl & Hm).
      rewrite Ht in Hm.
      assert (merge_all_at t (yielded (ds_pool s1)).*2 w0
              = merge_response_at t r
                  (merge_all_at t (yielded (ds_pool s)).*2 w0).2) as Hsnoc.
      { rewrite Hy, fmap_app. cbn [fmap list_fmap snd].
        rewrite merge_all_at_snoc. unfold mbind, M_bind.
        rewrite Hl in Hloop.
        destruct (merge_all_at t (yielded (ds_pool s)).*2 w0) as [res w].
        simpl in Hloop. by subst res. }
      destruct (merge_response_at_heap t r
                  (merge_all_at t (yielded (ds_pool s)).*2 w0).2
                  (ds_world s) Hheap) as (Hres & Hh & _).
      rewrite <-Hm in Hres, Hh. simpl in Hres, Hh.
      apply IH; [done|by rewrite Hsnoc|by rewrite Hsnoc].
Qed.

(** In the trace of a run every merge of a result follows the delivery of
    that result. *)
Lemma detail_trace_order (sched : list label) (s : detail_state)
    (pre : list event) :
  (∀ i r, (i, r) ∈ outbox (ds_pool s) → Finished i ∈ pre) →
  (∀ a i, pre !! a = Some (Merged i) →
          ∃ b, b < a ∧ pre !! b = Some (Finished i)) →
  ∀ a i, (pre ++ detail_trace sched s) !! a = Some (Merged i) →
         ∃ b, b < a ∧ (pre ++ detail_trace sched s) !! b = Some (Finished i).
Proof.
  revert s pre. induction sched as [|l sched IH]; intros s pre Hout Hpre.
  - simpl. by rewrite app_nil_r.
  - cbn [detail_trace].
    destruct (event_of l (ds_pool s)) as [e|] eqn:He;
      [|by rewrite app_nil_r].
    destruct (detail_step l s) as [s'|] eqn:Hstep; [|by rewrite app_nil_r].
    replace (pre ++ e :: detail_trace sched s')
      with ((pre ++ [e]) ++ detail_trace sched s')
      by (by rewrite <-(assoc (++))).
    apply detail_step_cases in Hstep as [_ Hstep].
    apply IH.
    + intros i r Hin. apply elem_of_app.
      destruct l as [k|k|].
      * destruct Hstep as (i' & _ & Ho & _). rewrite Ho in Hin. eauto.
      * destruct Hstep as (i' & r' & He' & Ho & _). rewrite Ho in Hin.
        apply elem_of_app in Hin as [?|Hin]; [eauto|].
        apply list_elem_of_singleton in Hin as [= -> ->].
        right. rewrite He in He'. injection He' as ->. by left.
      * destruct Hstep as (i' & r' & _ & Ho & _). left.
        apply (Hout i r). rewrite Ho. by right.
    + intros a i Ha.
      destruct (decide (a < length pre)) as [Hlt|Hge].
      * rewrite lookup_app_l in Ha by done.
        destruct (Hpre a i Ha) as (b & Hb & Hlook). exists b. split; [done|].
        rewrite lookup_app_l by lia. done.
      * rewrite lookup_app_r in Ha by lia.
        destruct (a - length pre) as [|n] eqn:Hn; [|done].
        simpl in Ha. injection Ha as ->.
        destruct l as [k|k|].
        -- destruct Hstep as (i' & He' & _). congruence.
        -- destruct Hstep as (i' & r' & He' & _). congruence.
        -- destruct Hstep as (i' & r' & He' & Ho & _).
           rewrite He in He'. injection He' as ->.
           assert (Finished i' ∈ pre) as Hin.
           { apply (Hout i' r'). rewrite Ho. by left. }
           apply list_elem_of_lookup in Hin as [b Hb].
           exists b. pose proof (lookup_lt_Some _ _ _ Hb).
           split; [lia|]. by rewrite lookup_app_l by lia.
Qed.

(** C9, as the code has it.  The entries of the table are objects of the
    store that the worker threads share with the caller.  In every run of
    the detail phase the store is exactly what the caller's loop has made
    of the initial store by merging, in order, the results it has received
    so far, and the loop has ended with an exception exactly if one of
    these merges raised; a step of a worker thread, which runs
    [MultiFetchHelper.fetch], changes no object of the store, nor the
    table, nor the state of the loop; and the merge of the result of a task
    comes after the worker delivered that result. *)
Theorem detail_merge_by_caller (t : gmap string nat) (threads : nat)
    (url : string) (tasks : list nat) (w0 : world) (sched : list label)
    (s : detail_state) :
  let s0 := DetailState (init_pool threads url tasks) w0 t (Ok ()) in
  detail_run sched s0 = Some s →
  (ds_table s = t ∧
   ds_loop s = (merge_all_at t (yielded (ds_pool s)).*2 w0).1 ∧
   heap (ds_world s) = heap (merge_all_at t (yielded (ds_pool s)).*2 w0).2) ∧
  (∀ l s', detail_step l s = Some s' → l ≠ Next →
           heap (ds_world s') = heap (ds_world s) ∧
           ds_table s' = ds_table s ∧ ds_loop s' = ds_loop s) ∧
  (∀ a i, detail_trace sched s0 !! a = Some (Merged i) →
          ∃ b, b < a ∧ detail_trace sched s0 !! b = Some (Finished i)).
Proof.
  intros s0 Hrun. split_and!.
  - by apply (detail_run_store t w0 sched s0).
  - by apply (detail_run_store t w0 sched s0).
  - by apply (detail_run_store t w0 sched s0).
  - intros l s' Hstep Hl. apply detail_step_cases in Hstep as [Ht Hstep].
    destruct l as [k|k|]; [| |done].
    + by destruct Hstep as (i & _ & _ & _ & ? & ?).
    + by destruct Hstep as (i & r & _ & _ & _ & ? & ?).
  - apply (detail_trace_order sched s0 []).
    + intros i r Hin. simpl in Hin. by apply elem_of_nil in Hin.
    + intros a i Ha. done.
Qed.

(** With a single detail request the schedule does not matter. *)
Lemma get_klocwork_issues_single (self : KlocworkWebApi)
    (build project : string) (project_root : option string)
    (sched : list label) (w w1 : world) (t : table) (threads : nat)
    (url : string) (task : nat) :
  search_phase self build project w =
    (Ok (t, PoolIter threads url [task]), w1) →
  0 < threads →
  (get_klocwork_issues self build project project_root sched w).1 =
  (t' ← merge_all t [fetch_result url (deref w1 task)];
   map_each (derive_fields project_root) (table_values t')).
Proof.
  intros Hphase Hthreads. unfold get_klocwork_issues.
  unfold mbind at 1, M_bind at 1. rewrite Hphase. cbn [fst snd].
  unfold mbind at 1, M_bind at 1.
  destruct (iterate_pool sched threads url [task] w1)
    as (responses & -> & Hperm); [by right|].
  apply Permutation_singleton_r in Hperm as ->.
  unfold mbind at 1, M_bind at 1, lift. cbn [fmap list_fmap].
  unfold mbind, outcome_bind.
  by destruct (merge_all t _).
Qed.

End DetailPhase.

(** ** Concrete runs *)

(** Evaluates [get_klocwork_issues] in environment [E] when the search
    returns one issue: the search phase is computed, the single detail
    result is the same under every schedule, and the rest is computed. *)
Ltac single_request E :=
  lazymatch goal with
  | |- (@get_klocwork_issues _ ?self ?build ?project ?root ?sched ?w).1 = _ =>
      let phase := eval vm_compute in (@search_phase E self build project w) in
      let Hphase := fresh "Hphase" in
      assert (@search_phase E self build project w = phase) as Hphase
        by (vm_compute; reflexivity);
      rewrite (@get_klocwork_issues_single E self build project root sched
                 w _ _ _ _ _ Hphase) by (cbv; lia);
      vm_compute; reflexivity
  end.

(** C1 on the example of the specification as it is written, the detail id
    a number: the lookup of the merge raises [KeyError]; with the detail id
    given as the string [1] the empty [history] raises [IndexError]. *)
Lemma example_with_numeric_detail_id_raises :
  (@get_klocwork_issues (scenario "issue-empty-history" "detail-int-id")
     kw_api "b1" "proj" None [] empty_world).1 = Raise KeyError ∧
  (@get_klocwork_issues (scenario "issue-empty-history" "detail-str-id")
     kw_api "b1" "proj" None [] empty_world).1 = Raise IndexError.
Proof. split; vm_compute; reflexivity. Qed.

(** C1, as the code has it: in every record that [get_klocwork_issues]
    returns, [comment] is the empty string when the record has no
    [history], and when [history] is a list that starts with a dictionary,
    [comment] is the [comment] of that dictionary, or the empty string if
    it has none.  In particular, for the search response [[{id: 1, code:
    "Analyze", location: "/a/b/c"}]] and the detail record [{id: "1",
    severity: "High"}] the result is, under every schedule, the one record
    with [dispositioned = "no"], [comment = ""], [severity = "High"] and
    [location = "/a/b/c"]. *)
Theorem comment_of_assembled_issue :
  (∀ (E : Env) (self : KlocworkWebApi) (build project : string)
     (project_root : option string) (sched : list label) (w : world)
     (issues : list value) (issue : value),
      (get_klocwork_issues self build project project_root sched w).1
        = Ok issues →
      issue ∈ issues →
      ∃ o : dict,
        issue = VDict o ∧
        (o !! "history" = None → o !! "comment" = Some (VStr "")) ∧
        (∀ e rest, o !! "history" = Some (VList (VDict e :: rest)) →
                   o !! "comment" = Some (default (VStr "") (e !! "comment")))) ∧
  (∀ sched : list label,
      (@get_klocwork_issues (scenario "issue-no-history" "detail-str-id")
         kw_api "b1" "proj" None sched empty_world).1
      = Ok [assembled_no_history]).
Proof.
  split.
  - intros E self build project project_root sched w issues issue Hrun Hin.
    destruct (get_klocwork_issues_derived _ _ _ _ _ _ _ Hrun _ Hin)
      as [entry Hentry].
    pose proof (derive_fields_Ok _ _ _ Hentry)
      as (d & latest & comment & disp & location & _ & _ & _ & _ & Hout).
    subst issue. eexists. split; [done|].
    by apply (derived_comment project_root entry).
  - intros sched. single_request (scenario "issue-no-history" "detail-str-id").
Qed.

(** C3 on a record whose latest comment is [null]: the comment is not the
    empty string and the code is not [Analyze], yet the issue is reported
    as not dispositioned. *)
Lemma null_comment_is_not_dispositioned :
  ∃ o : dict,
    (@get_klocwork_issues (scenario "issue-null-comment" "detail-str-id")
       kw_api "b1" "proj" None [] empty_world).1 = Ok [VDict o] ∧
    o !! "comment" = Some VNone ∧
    o !! "code" = Some (VStr "Fix") ∧
    o !! "dispositioned" = Some (VStr "no").
Proof. eexists. split_and!; vm_compute; reflexivity. Qed.

(** C3, as the code has it: in every record that [get_klocwork_issues]
    returns, [dispositioned] is ["no"] or ["yes"], and it is ["no"] exactly
    when the derived comment is false as a condition (the empty string,
    [None], [False], zero, an empty list or dictionary) or [code] is the
    string ["Analyze"]; for a comment that is a string this is: exactly
    when the comment is empty or [code] is ["Analyze"].  In particular an
    issue with [history = [{comment: "fixed"}]] and [code = "Fix"] is
    returned, under every schedule, with [dispositioned = "yes"] and
    [comment = "fixed"]. *)
Theorem disposition_of_assembled_issue :
  (∀ (E : Env) (self : KlocworkWebApi) (build project : string)
     (project_root : option string) (sched : list label) (w : world)
     (issues : list value) (issue : value),
      (get_klocwork_issues self build project project_root sched w).1
        = Ok issues →
      issue ∈ issues →
      ∃ (o : dict) (comment : value),
        issue = VDict o ∧
        o !! "comment" = Some comment ∧
        (o !! "dispositioned" = Some (VStr "no") ∨
         o !! "dispositioned" = Some (VStr "yes")) ∧
        (o !! "dispositioned" = Some (VStr "no") ↔
         truthy comment = false ∨ o !! "code" = Some (VStr "Analyze")) ∧
        (∀ s, comment = VStr s →
              (o !! "dispositioned" = Some (VStr "no") ↔
               s = "" ∨ o !! "code" = Some (VStr "Analyze")))) ∧
  (∀ sched : list label,
      (@get_klocwork_issues (scenario "issue-fixed" "detail-str-id")
         kw_api "b1" "proj" None sched empty_world).1
      = Ok [assembled_fixed]).
Proof.
  split.
  - intros E self build project project_root sched w issues issue Hrun Hin.
    destruct (get_klocwork_issues_derived _ _ _ _ _ _ _ Hrun _ Hin)
      as [entry Hentry].
    pose proof (derive_fields_Ok _ _ _ Hentry)
      as (d & latest & comment & disp & location & _ & _ & _ & _ & Hout).
    subst issue.
    destruct (derived_disposition project_root entry _ Hentry)
      as (c & Hc & Hcases & Hiff).
    eexists _, c. split_and!; [done..|].
    intros s ->. rewrite Hiff. simpl.
    destruct (String.eqb_spec s ""); simpl; split; intros [?|?]; auto; done.
  - intros sched. single_request (scenario "issue-fixed" "detail-str-id").
Qed.

(** C4 on a table with the key ["1"] and a detail record whose id is the
    number 1. *)
Lemma unknown_detail_id_raises_witness :
  raises (merge_all table_of_issue_1 [Ok [detail_int_id]]) ∧
  ∀ responses' t',
    merge_all table_of_issue_1 responses' = Ok t' →
    dom t' = dom table_of_issue_1.
Proof.
  apply (unknown_detail_id_raises table_of_issue_1
           [Ok [detail_int_id]] [detail_int_id] detail_int_id).
  - by left.
  - by left.
  - intros (s & Hs & _). vm_compute in Hs. discriminate.
Defined.

(** C5 on a search record and a detail record that both carry the id as
    the number 1: the table has the key ["1"], the lookup with the number
    raises [KeyError]. *)
Lemma numeric_detail_id_is_not_found :
  @for_each _ _ (@index_issue no_server "proj") [issue_no_history] (∅, [])
    = Ok (table_of_issue_1, [details_request "proj" (VInt 1)]) ∧
  getitem detail_int_id "id" = Ok (VInt 1) ∧
  table_getitem table_of_issue_1 (VInt 1) = Raise KeyError ∧
  merge_record table_of_issue_1 detail_int_id = Raise KeyError.
Proof. split_and!; vm_compute; reflexivity. Qed.

(** C5 on the search response [[{id: 1, ...}]]. *)
Lemma detail_merge_target_exists_witness :
  (∀ k, is_Some (table_of_issue_1 !! k) ↔
        ∃ issue id, issue ∈ [issue_no_history] ∧
                    getitem issue "id" = Ok id ∧
                    @py_str no_server id = Ok k) ∧
  Forall2 (λ issue req, ∃ id, getitem issue "id" = Ok id ∧
                              req = details_request "proj" id)
          [issue_no_history] [details_request "proj" (VInt 1)] ∧
  (∀ issue id k responses t' r,
    issue ∈ [issue_no_history] → getitem issue "id" = Ok id →
    @py_str no_server id = Ok k →
    merge_all table_of_issue_1 responses = Ok t' →
    getitem r "id" = Ok (VStr k) →
    (∃ entry, table_getitem t' (VStr k) = Ok (k, entry)) ∧
    is_ok (merge_record t' r) = true) ∧
  (∀ responses t' r id,
    merge_all table_of_issue_1 responses = Ok t' →
    getitem r "id" = Ok id →
    (∀ s, id ≠ VStr s) →
    let e := match id with
             | VList _ | VDict _ => TypeError
             | _ => KeyError
             end in
    table_getitem t' id = Raise e ∧ merge_record t' r = Raise e).
Proof.
  apply (@detail_merge_target_exists no_server "proj" [issue_no_history]
           table_of_issue_1 [details_request "proj" (VInt 1)]).
  vm_compute. reflexivity.
Defined.



(** C9 on a search with two issues: after the steps [Take 0; Take 1;
    Finish 0; Next] the detail record of issue 1 is merged into the object
    of its entry while the task of issue 2 is still running on its worker;
    in the trace of the whole run the first merge comes before the second
    delivery. *)
Lemma merge_while_task_running :
  ∃ (s : detail_state) (d : dict),
    two_issues_start = Some two_issues_initial ∧
    @detail_run two_issues (take 4 overlapping_schedule) two_issues_initial
      = Some s ∧
    ds_loop s = Ok () ∧
    ds_table s !! "1" = Some 4 ∧
    heap (ds_world s) !! 4 = Some d ∧
    d !! "severity" = Some (VStr "High") ∧
    length (busy (ds_pool s)) = 1 ∧
    @detail_trace two_issues overlapping_schedule two_issues_initial
      = [Started 0; Started 1; Finished 0; Merged 0; Finished 1; Merged 1].
Proof. do 2 eexists. split_and!; vm_compute; reflexivity. Qed.

(** C9 on the same run. *)
Lemma detail_merge_by_caller_witness :
  ∃ s : detail_state,
    @detail_run two_issues overlapping_schedule two_issues_initial = Some s ∧
    (ds_table s = two_issues_refs ∧
     ds_loop s =
       (merge_all_at two_issues_refs (yielded (ds_pool s)).*2
          two_issues_world).1 ∧
     heap (ds_world s) =
       heap (merge_all_at two_issues_refs (yielded (ds_pool s)).*2
               two_issues_world).2) ∧
    (∀ l s', @detail_step two_issues l s = Some s' → l ≠ Next →
             heap (ds_world s') = heap (ds_world s) ∧
             ds_table s' = ds_table s ∧ ds_loop s' = ds_loop s) ∧
    (∀ a i,
        @detail_trace two_issues overlapping_schedule two_issues_initial !! a
          = Some (Merged i) →
        ∃ b, b < a ∧
             @detail_trace two_issues overlapping_schedule two_issues_initial
               !! b = Some (Finished i)).
Proof.
  eexists. split; [vm_compute; reflexivity|].
  apply (@detail_merge_by_caller two_issues two_issues_refs 2
           "http://kw:8080/review/api" [2; 3] two_issues_world
           overlapping_schedule).
  vm_compute. reflexivity.
Defined.

(** * Further properties of the module *)

Section TokenFile.
Context `{Env}.

Lemma get_token_scan_sound (host : string) (port : Z)
    (preferred_user : option string) (entries : list string)
    (result : option string * option string) :
  get_token_scan host port preferred_user entries = Ok result →
  result = (None, None) ∨
  ∃ entry h user token,
    entry ∈ entries ∧
    split ";" (strip entry) !! 0 = Some h ∧ getfqdn h = host ∧
    split ";" (strip entry) !! 1 = Some (str_int port) ∧
    split ";" (strip entry) !! 2 = Some user ∧
    split ";" (strip entry) !! 3 = Some token ∧
    (user_given preferred_user = true → preferred_user = Some user) ∧
    result = (Some token, Some user).
Proof.
  revert result.
  induction entries as [|entry rest IH]; intros result;
    [intros [= <-]; by left|].
  assert (∀ r, get_token_scan host port preferred_user rest = Ok r →
               r = (None, None) ∨
               ∃ entry0 h user token,
                 entry0 ∈ entry :: rest ∧
                 split ";" (strip entry0) !! 0 = Some h ∧ getfqdn h = host ∧
                 split ";" (strip entry0) !! 1 = Some (str_int port) ∧
                 split ";" (strip entry0) !! 2 = Some user ∧
                 split ";" (strip entry0) !! 3 = Some token ∧
                 (user_given preferred_user = true →
                  preferred_user = Some user) ∧
                 r = (Some token, Some user)) as IH'.
  { intros r Hr. destruct (IH _ Hr) as [?|(e & h & u & t & ? & ?)];
      [by left|right]. exists e, h, u, t. split; [by right|done]. }
  clear IH. rename IH' into IH. cbn [get_token_scan].
  unfold index, mbind, outcome_bind.
  destruct (split ";" (strip entry) !! 0) as [h|] eqn:H0; [|done].
  destruct (String.eqb_spec (getfqdn h) host) as [Hh|Hh]; [|apply IH].
  destruct (split ";" (strip entry) !! 1) as [p|] eqn:H1; [|done].
  destruct (String.eqb_spec p (str_int port)) as [->|Hp]; [|apply IH].
  destruct (user_given preferred_user) eqn:Hgiven.
  - destruct (split ";" (strip entry) !! 2) as [u|] eqn:H2; [|done].
    destruct (user_differs u preferred_user) eqn:Hdiff; [apply IH|].
    destruct (split ";" (strip entry) !! 3) as [t|] eqn:H3; [|done].
    intros [= <-]. right. exists entry, h, u, t.
    split_and!; [by left|done..| |done].
    intros _. unfold user_differs in Hdiff.
    destruct preferred_user as [pu|]; [|done].
    apply negb_false_iff, String.eqb_eq in Hdiff. by subst.
  - destruct (split ";" (strip entry) !! 3) as [t|] eqn:H3; [|done].
    destruct (split ";" (strip entry) !! 2) as [u|] eqn:H2; [|done].
    intros [= <-]. right. exists entry, h, u, t.
    split_and!; [by left|done..].
Qed.

Lemma get_token_scan_raises (host : string) (port : Z)
    (preferred_user : option string) (entries : list string) (e : exn) :
  get_token_scan host port preferred_user entries = Raise e →
  e = IndexError ∧
  ∃ entry h,
    entry ∈ entries ∧
    split ";" (strip entry) !! 0 = Some h ∧ getfqdn h = host ∧
    length (split ";" (strip entry)) < 4.
Proof.
  induction entries as [|entry rest IH]; [done|].
  assert (get_token_scan host port preferred_user rest = Raise e →
          e = IndexError ∧
          ∃ entry0 h,
            entry0 ∈ entry :: rest ∧
            split ";" (strip entry0) !! 0 = Some h ∧ getfqdn h = host ∧
            length (split ";" (strip entry0)) < 4) as IH'.
  { intros Hr. destruct (IH Hr) as (-> & e0 & h & ? & ?).
    split; [done|]. exists e0, h. split; [by right|done]. }
  clear IH. rename IH' into IH. cbn [get_token_scan].
  unfold index, mbind, outcome_bind.
  destruct (split ";" (strip entry) !! 0) as [h|] eqn:H0.
  2:{ destruct (strip entry) as [|c s]; [done|]. simpl in H0.
      destruct (Ascii.eqb c ";"); [done|]. by destruct (split ";" s). }
  destruct (String.eqb_spec (getfqdn h) host) as [<-|Hh]; [|apply IH].
  assert (∀ i, i < 4 → split ";" (strip entry) !! i = None →
               @Raise (option string * option string) IndexError = Raise e →
               e = IndexError ∧
               ∃ entry0 h0,
                 entry0 ∈ entry :: rest ∧
                 split ";" (strip entry0) !! 0 = Some h0 ∧
                 getfqdn h0 = getfqdn h ∧
                 length (split ";" (strip entry0)) < 4) as Hshort.
  { intros i Hi Hnone [= <-]. split; [done|]. exists entry, h.
    split_and!; [by left|done..|].
    apply lookup_ge_None in Hnone. lia. }
  destruct (split ";" (strip entry) !! 1) as [p|] eqn:H1;
    [|by apply (Hshort 1); [lia|]].
  destruct (String.eqb_spec p (str_int port)) as [->|Hp]; [|apply IH].
  destruct (user_given preferred_user) eqn:Hgiven.
  - destruct (split ";" (strip entry) !! 2) as [u|] eqn:H2;
      [|by apply (Hshort 2); [lia|]].
    destruct (user_differs u preferred_user) eqn:Hdiff; [apply IH|].
    destruct (split ";" (strip entry) !! 3) as [t|] eqn:H3;
      [done|by apply (Hshort 3); [lia|]].
  - destruct (split ";" (strip entry) !! 3) as [t|] eqn:H3;
      [|by apply (Hshort 3); [lia|]].
    destruct (split ";" (strip entry) !! 2) as [u|] eqn:H2;
      [done|by apply (Hshort 2); [lia|]].
Qed.

Lemma get_token_scan_empty_user (host : string) (port : Z)
    (entries : list string) :
  get_token_scan host port (Some "") entries =
  get_token_scan host port None entries.
Proof.
  induction entries as [|entry rest IH]; [done|].
  cbn [get_token_scan]. rewrite IH. done.
Qed.

(** X1: whatever the token file holds, a token that [get_token] returns
    comes with its user from one line of the file: the qualified host of
    the line is the qualified requested host, its port field is the text
    of the port, its third and fourth fields are the user and the token
    returned, and a non-empty preferred user is the user of the line.
    The only other result is [(None, None)]. *)
Theorem get_token_sound (ltoken_file host : string) (port : Z)
    (preferred_user : option string)
    (result : option string * option string) :
  get_token ltoken_file host port preferred_user = Ok result →
  result = (None, None) ∨
  ∃ entry h user token,
    entry ∈ file_lines ltoken_file ∧
    split ";" (strip entry) !! 0 = Some h ∧ getfqdn h = getfqdn host ∧
    split ";" (strip entry) !! 1 = Some (str_int port) ∧
    split ";" (strip entry) !! 2 = Some user ∧
    split ";" (strip entry) !! 3 = Some token ∧
    (user_given preferred_user = true → preferred_user = Some user) ∧
    result = (Some token, Some user).
Proof. apply get_token_scan_sound. Qed.

(** X2: the only exception [get_token] raises on a token file is
    [IndexError], and it raises it only when some line whose qualified host
    is the requested one has fewer than four fields. *)
Theorem get_token_raises_only_IndexError (ltoken_file host : string)
    (port : Z) (preferred_user : option string) (e : exn) :
  get_token ltoken_file host port preferred_user = Raise e →
  e = IndexError ∧
  ∃ entry h,
    entry ∈ file_lines ltoken_file ∧
    split ";" (strip entry) !! 0 = Some h ∧ getfqdn h = getfqdn host ∧
    length (split ";" (strip entry)) < 4.
Proof. apply get_token_scan_raises. Qed.

(** X3: an empty preferred user is no filter: [get_token] returns with it
    what it returns without a preferred user. *)
Theorem get_token_empty_user (ltoken_file host : string) (port : Z) :
  get_token ltoken_file host port (Some "") =
  get_token ltoken_file host port None.
Proof. apply get_token_scan_empty_user. Qed.

End TokenFile.

Section TokenRoundTrip.
Context `{Env}.

Lemma append_cons (c : ascii) (s t : string) :
  String c s +:+ t = String c (s +:+ t).
Proof. done. Qed.

Lemma append_assoc (s t u : string) : (s +:+ t) +:+ u = s +:+ t +:+ u.
Proof.
  induction s as [|c s IH]; [done|]. by rewrite !append_cons, IH.
Qed.

Lemma plain_solid (s : string) :
  plain s = true → solid s = true.
Proof.
  induction s as [|c s IH]; [done|]. simpl.
  intros [[Hc _]%andb_true_iff Hs]%andb_true_iff. by rewrite Hc, IH.
Qed.

Lemma solid_app (s t : string) :
  solid s = true → solid t = true → solid (s +:+ t) = true.
Proof.
  intros Hs Ht. induction s as [|c s IH]; [done|].
  rewrite append_cons. simpl in *.
  apply andb_true_iff in Hs as [-> Hs]. by apply IH.
Qed.

Lemma split_plain (h rest : string) :
  plain h = true → split ";" (h +:+ ";" +:+ rest) = h :: split ";" rest.
Proof.
  induction h as [|c h IH]; [done|]. rewrite append_cons. simpl.
  intros [[_ Hc]%andb_true_iff Hh]%andb_true_iff.
  apply negb_true_iff in Hc. rewrite Hc, IH; done.
Qed.

Lemma split_plain_last (t : string) :
  plain t = true → split ";" t = [t].
Proof.
  induction t as [|c t IH]; [done|]. simpl.
  intros [[_ Hc]%andb_true_iff Ht]%andb_true_iff.
  apply negb_true_iff in Hc. rewrite Hc, IH; done.
Qed.

Lemma rstrip_solid_newline (s : string) :
  solid s = true → rstrip (s +:+ newline) = s.
Proof.
  induction s as [|c s IH]; [done|]. rewrite append_cons. simpl.
  intros [Hc Hs]%andb_true_iff. rewrite IH by done.
  apply negb_true_iff in Hc. rewrite Hc. by destruct s.
Qed.

Lemma lstrip_solid (s : string) : solid s = true → lstrip s = s.
Proof.
  destruct s as [|c s]; [done|]. simpl. intros [Hc _]%andb_true_iff.
  apply negb_true_iff in Hc. by rewrite Hc.
Qed.

Lemma strip_solid_newline (s : string) :
  solid s = true → strip (s +:+ newline) = s.
Proof.
  intros Hs. unfold strip. destruct s as [|c s]; [done|].
  rewrite append_cons. pose proof Hs as Hs'. simpl in Hs.
  apply andb_true_iff in Hs as [Hc _]. apply negb_true_iff in Hc.
  cbn [lstrip]. rewrite Hc, <-append_cons. by apply rstrip_solid_newline.
Qed.

Lemma file_lines_solid (s rest : string) :
  solid s = true →
  file_lines (s +:+ newline +:+ rest) = (s +:+ newline) :: file_lines rest.
Proof.
  induction s as [|c s IH]; [done|]. rewrite !append_cons. simpl.
  intros [Hc Hs]%andb_true_iff. rewrite IH by done.
  assert (Ascii.eqb c "010" = false) as ->; [|done].
  destruct (Ascii.eqb_spec c "010") as [->|]; done.
Qed.

(** A formatted entry is one line of the file and parses back to the
    credential. *)
Lemma format_entry_line (c : credential) (rest : string) :
  plain_credential c = true →
  ∃ line, file_lines (format_entry c +:+ rest) = line :: file_lines rest ∧
          parse_entry line = Some c.
Proof.
  destruct c as [h p u t]. unfold plain_credential, format_entry. simpl.
  intros [[[Hh Hp]%andb_true_iff Hu]%andb_true_iff Ht]%andb_true_iff.
  set (body := h +:+ ";" +:+ p +:+ ";" +:+ u +:+ ";" +:+ t).
  assert (solid body = true) as Hsolid.
  { unfold body. repeat (apply solid_app; [first [done|by apply plain_solid]|]).
    by apply plain_solid. }
  exists (body +:+ newline). split.
  - rewrite <-(file_lines_solid body rest) by done. f_equal.
    unfold body. by rewrite !append_assoc.
  - unfold parse_entry. rewrite strip_solid_newline by done. unfold body.
    by rewrite !split_plain, split_plain_last.
Qed.

(** X4: a token file written as lines [host;port;user;token], with fields
    free of white space and of the separator, is read back entry by entry:
    [get_token] returns the token and user of the first credential with
    the requested qualified host and port (and, if a non-empty preferred
    user is given, that user), or [(None, None)] when there is none. *)
Theorem get_token_reads_formatted_file (cs : list credential)
    (host : string) (port : Z) (preferred_user : option string) :
  forallb plain_credential cs = true →
  get_token (format_file cs) host port preferred_user =
  Ok (first_selected host port preferred_user cs).
Proof.
  unfold get_token, first_selected.
  induction cs as [|c cs IH]; [done|]. cbn [forallb format_file].
  intros [Hc Hcs]%andb_true_iff.
  destruct (format_entry_line c (format_file cs) Hc) as (line & -> & Hline).
  rewrite (get_token_scan_entry _ _ _ _ _ c Hline). cbn [List.find].
  destruct (entry_selected host port preferred_user c); [done|].
  by apply IH.
Qed.

End TokenRoundTrip.

Section StripPathMore.
Context `{Env}.

Lemma string_drop_suffix (n : nat) (s : string) :
  ∃ prefix, s = prefix +:+ string_drop n s.
Proof.
  revert s. induction n as [|n IH]; intros s; [by exists ""|].
  destruct s as [|c s]; [by exists ""|].
  destruct (IH s) as [prefix Hs]. exists (String c prefix).
  simpl. by rewrite append_cons, <-Hs.
Qed.

(** X5: [strip_path] only ever removes a prefix: the path is some prefix
    followed by the result. *)
Theorem strip_path_suffix (path : string) (roots : list string) :
  ∃ prefix, path = prefix +:+ strip_path path roots.
Proof.
  destruct (strip_path_cases path roots)
    as [[-> _]|(skipped & root & rest & _ & _ & _ & ->)].
  - by exists "".
  - apply string_drop_suffix.
Qed.

Lemma occurs_rfind (path sub : string) :
  (∃ j, occurs_at sub path j) ↔ (0 ≤ rfind path sub)%Z.
Proof.
  split.
  - intros [j Hj]. destruct (Z.le_gt_cases 0 (rfind path sub)); [done|].
    by apply (rfind_neg path sub) with (j := j) in Hj; [|lia].
  - intros Hpos. destruct (rfind_nonneg _ _ Hpos) as [Hocc _]. eauto.
Qed.

(** X6: roots are tried in order.  With the roots [roots ++ roots'] the
    result is that for [roots] alone when the pattern of one of them occurs
    in the path, and that for [roots'] alone when none does. *)
Theorem strip_path_app (path : string) (roots roots' : list string) :
  ((∃ root j, root ∈ roots ∧ occurs_at (root_pattern root) path j) →
   strip_path path (roots ++ roots') = strip_path path roots) ∧
  ((∀ root j, root ∈ roots → ¬ occurs_at (root_pattern root) path j) →
   strip_path path (roots ++ roots') = strip_path path roots').
Proof.
  split.
  - induction roots as [|r roots IH]; intros (root & j & Hin & Hocc).
    + by apply elem_of_nil in Hin.
    + cbn [app strip_path].
      destruct (Z.leb_spec 0 (rfind path (root_pattern r))) as [?|Hneg];
        [done|].
      apply IH. exists root, j. split; [|done].
      apply elem_of_cons in Hin as [->|?]; [|done].
      exfalso. by apply (rfind_neg _ _ Hneg j).
  - intros Hnone. apply strip_path_skip. intros r Hr.
    destruct (Z.le_gt_cases 0 (rfind path (root_pattern r))) as [Hpos|?];
      [|lia].
    apply occurs_rfind in Hpos as [j Hj]. by apply Hnone in Hj.
Qed.

End StripPathMore.

Section FetchMore.
Context `{Env}.

Lemma map_each_Ok_iff {A B} (f : A → outcome B) (l : list A) (ys : list B) :
  map_each f l = Ok ys ↔ Forall2 (λ x y, f x = Ok y) l ys.
Proof.
  split; [apply map_each_Ok|].
  induction 1 as [|x y l ys Hx _ IH]; [done|].
  simpl. unfold mbind, outcome_bind. by rewrite Hx, IH.
Qed.

(** The exception of [map_each] is that of the first element that raises. *)
Lemma map_each_Raise_iff {A B} (f : A → outcome B) (l : list A) (e : exn) :
  map_each f l = Raise e ↔
  ∃ i x, l !! i = Some x ∧ f x = Raise e ∧
         ∀ j y, j < i → l !! j = Some y → is_ok (f y) = true.
Proof.
  induction l as [|x l IH]; simpl.
  - split; [done|]. by intros (i & y & ? & _).
  - unfold mbind, outcome_bind. destruct (f x) as [y|e'] eqn:Hx.
    + transitivity (map_each f l = Raise e).
      { destruct (map_each f l); split; intros [=]; by subst. }
      rewrite IH. split.
      * intros (i & z & Hz & Hfz & Hbefore). exists (S i), z.
        split_and!; [done..|]. intros [|j] y' Hj Hy'.
        -- injection Hy' as <-. by rewrite Hx.
        -- apply (Hbefore j y'); [lia|done].
      * intros ([|i] & z & Hz & Hfz & Hbefore).
        -- simpl in Hz. congruence.
        -- exists i, z. split_and!; [done..|].
           intros j y' Hj Hy'. apply (Hbefore (S j) y'); [lia|done].
    + split.
      * intros [= ->]. exists 0, x. split_and!; [done..|]. intros; lia.
      * intros ([|i] & z & Hz & Hfz & Hbefore).
        -- simpl in Hz. congruence.
        -- specialize (Hbefore 0 x ltac:(lia) eq_refl). by rewrite Hx in Hbefore.
Qed.

(** X7: what [fetch] does and returns.  Whatever the outcome, the caller's
    [params] object has been updated with the common parameters and the
    request has been issued with it.  A failure of the transport is raised.
    Otherwise the result is the list of the decoded lines of the response,
    one record per line in order, unless a line fails to decode: then the
    exception of the first such line is raised. *)
Theorem fetch_outcome (url : string) (params common : nat) (w : world) :
  let merged := deref w common ∪ deref w params in
  (fetch url params common w).2 =
    World (<[params := merged]> (heap w)) (calls w ++ [(url, merged)]) ∧
  (∀ e, urlopen url merged = Raise e →
        (fetch url params common w).1 = Raise e) ∧
  (∀ lines, urlopen url merged = Ok lines →
     (∀ records, (fetch url params common w).1 = Ok records ↔
                 Forall2 (λ line r, json_loads line = Ok r) lines records) ∧
     (∀ e, (fetch url params common w).1 = Raise e ↔
           ∃ i line, lines !! i = Some line ∧ json_loads line = Raise e ∧
                     ∀ j l, j < i → lines !! j = Some l →
                            is_ok (json_loads l) = true)).
Proof.
  intros merged. rewrite fetch_eq. fold merged. simpl. split; [done|].
  unfold fetch_result, mbind, outcome_bind, decode_lines.
  split.
  - by intros e ->.
  - intros lines ->. split.
    + intros records. apply map_each_Ok_iff.
    + intros e. apply map_each_Raise_iff.
Qed.

(** X8: the update of the parameters is idempotent.  A second [fetch] with
    the same objects sends a request with the same parameters as the first
    and leaves the store as the first call left it; after a second
    [multifetch] over the same objects every object holds what it held
    after the first. *)
Theorem fetch_twice (url : string) (params common : nat) (w : world) :
  let first := fetch url params common w in
  let second := fetch url params common first.2 in
  heap second.2 = heap first.2 ∧
  calls second.2 =
    calls first.2 ++ [(url, deref w common ∪ deref w params)] ∧
  ∀ (ps : list nat) (l : nat),
    let once := (multifetch url ps common w).2 in
    deref (multifetch url ps common once).2 l = deref once l.
Proof.
  intros first second. unfold second, first. rewrite !fetch_eq. simpl.
  set (merged := deref w common ∪ deref w params).
  set (w1 := World (<[params:=merged]> (heap w)) (calls w ++ [(url, merged)])).
  assert (deref w1 common ∪ deref w1 params = merged) as Hm.
  { unfold deref, w1; simpl. rewrite lookup_total_insert_eq.
    destruct (decide (common = params)) as [->|Hne].
    - rewrite lookup_total_insert_eq. apply (idemp (∪)).
    - rewrite lookup_total_insert_ne by done. fold (deref w common).
      unfold merged. by rewrite (assoc (∪)), (idemp (∪)). }
  rewrite Hm. split_and!.
  - unfold w1; simpl. by rewrite insert_insert_eq.
  - done.
  - intros ps l. rewrite !multifetch_world.
    destruct (update_all_spec ps common (update_all ps common w).2)
      as (_ & _ & ->).
    destruct (update_all_spec ps common w) as (_ & _ & Hd).
    rewrite !Hd. repeat case_decide; try done;
      rewrite ?(idemp (∪) (deref w common));
      by rewrite (assoc (∪)), (idemp (∪)).
Qed.

End FetchMore.

Section Requests.
Context `{Env}.

Lemma alloc_all_spec (ds : list dict) (w : world) :
  ∃ locs w',
    alloc_all ds w = (Ok locs, w') ∧
    calls w' = calls w ∧
    Forall2 (λ l d, heap w' !! l = Some d) locs ds ∧
    ∀ l, l ∈ dom (heap w) → heap w' !! l = heap w !! l.
Proof.
  revert w. induction ds as [|d ds IH]; intros w.
  - exists [], w. by split_and!.
  - cbn [alloc_all]. unfold mbind, M_bind. unfold alloc at 1.
    set (l := fresh (dom (heap w))).
    set (w1 := World (<[l := d]> (heap w)) (calls w)).
    destruct (IH w1) as (locs & w' & -> & Hcalls & Hlocs & Hold).
    exists (l :: locs), w'. split_and!; [done..| |].
    + constructor; [|done]. rewrite Hold.
      * apply lookup_insert_eq.
      * unfold w1; simpl. rewrite dom_insert_L.
        apply elem_of_union_l. by apply elem_of_singleton.
    + intros l' Hl'. rewrite Hold.
      * unfold w1; simpl. apply lookup_insert_ne. intros Heq.
        apply (is_fresh (dom (heap w))). fold l. by rewrite Heq.
      * unfold w1; simpl. rewrite dom_insert_L. by apply elem_of_union_r.
Qed.

Lemma deref_lookup (w : world) (l : nat) (d : dict) :
  heap w !! l = Some d → deref w l = d.
Proof. intros Hl. unfold deref. by apply lookup_total_correct. Qed.

(** The search phase: the search request carries the credentials; if it or
    the indexing fails nothing else happens; otherwise one object per
    detail request is prepared, holding the request with the
    credentials. *)
Lemma search_phase_spec (self : KlocworkWebApi) (build project : string)
    (w : world) :
  let url := api_url self in
  let sreq := credentials self ∪ search_params project build in
  ∃ w1,
    (search_phase self build project w).2 = w1 ∧
    calls w1 = calls w ++ [(url, sreq)] ∧
    match fetch_result url sreq with
    | Raise e => (search_phase self build project w).1 = Raise e
    | Ok issues_response =>
        match for_each (index_issue project) issues_response (∅, []) with
        | Raise e => (search_phase self build project w).1 = Raise e
        | Ok (t, reqs) =>
            ∃ locs,
              (search_phase self build project w).1 =
                Ok (t, match locs with
                       | [] => EmptyList
                       | _ :: _ =>
                           PoolIter (length locs `min` MAX_PARALLEL_FETCH_COUNT)
                             url locs
                       end) ∧
              Forall2 (λ l req, deref w1 l = credentials self ∪ req) locs reqs
        end
    end.
Proof.
  intros url sreq.
  remember (search_phase self build project w) as sp eqn:Hsp.
  unfold search_phase in Hsp.
  unfold mbind at 1, M_bind at 1, alloc at 1 in Hsp.
  set (lc := fresh (dom (heap w))) in Hsp.
  set (wa := World (<[lc := _]> (heap w)) (calls w)) in Hsp.
  unfold mbind at 1, M_bind at 1, alloc at 1 in Hsp.
  set (ls := fresh (dom (heap wa))) in Hsp.
  set (wb := World (<[ls := _]> (heap wa)) (calls wa)) in Hsp.
  assert (ls ≠ lc) as Hne.
  { intros Heq. apply (is_fresh (dom (heap wa))). fold ls. rewrite Heq.
    unfold wa; simpl. rewrite dom_insert_L.
    apply elem_of_union_l. by apply elem_of_singleton. }
  unfold mbind at 1, M_bind at 1 in Hsp. rewrite fetch_eq in Hsp.
  assert (deref wb lc ∪ deref wb ls = sreq) as Hsreq.
  { unfold deref, wb, wa; simpl. rewrite lookup_total_insert_eq.
    rewrite lookup_total_insert_ne by done.
    by rewrite lookup_total_insert_eq. }
  rewrite Hsreq in Hsp. fold url in Hsp.
  set (wc := World (<[ls := sreq]> (heap wb)) (calls wb ++ [(url, sreq)]))
    in Hsp.
  destruct (fetch_result url sreq) as [issues_response|e].
  2:{ subst sp. by exists wc. }
  unfold mbind at 1, M_bind at 1, lift at 1 in Hsp.
  destruct (for_each (index_issue project) issues_response (∅, []))
    as [[t reqs]|e].
  2:{ subst sp. by exists wc. }
  unfold mbind at 1, M_bind at 1 in Hsp. cbn [fst snd] in Hsp.
  destruct (alloc_all_spec reqs wc) as (locs & wd & Ha & Hcalls & Hlocs & Hold).
  rewrite Ha in Hsp. unfold mbind at 1, M_bind at 1 in Hsp.
  pose proof (multifetch_result url locs lc wd) as Hres.
  pose proof (multifetch_world url locs lc wd) as Hworld.
  destruct (multifetch url locs lc wd) as [[it|e] we]; [|done].
  simpl in Hres, Hworld. injection Hres as ->. subst we.
  destruct (update_all_spec locs lc wd) as (_ & Hcalls' & Hderef).
  subst sp. exists (update_all locs lc wd).2. split; [done|].
  split; [by rewrite Hcalls', Hcalls|].
  exists locs. split; [done|].
  assert (deref wd lc = credentials self) as Hc.
  { apply deref_lookup. rewrite Hold.
    - unfold wc, wb, wa; simpl. rewrite !lookup_insert_ne by done.
      apply lookup_insert_eq.
    - unfold wc, wb, wa; simpl. rewrite !dom_insert_L.
      do 2 apply elem_of_union_r. apply elem_of_union_l.
      by apply elem_of_singleton. }
  apply Forall2_same_length_lookup. split; [by eapply Forall2_length|].
  intros i l req Hl Hreq. rewrite Hderef, Hc.
  rewrite decide_True by (by eapply list_elem_of_lookup_2).
  f_equal. apply deref_lookup.
  exact (Forall2_lookup_lr _ _ _ _ _ _ Hlocs Hl Hreq).
Qed.

Lemma M_bind_run {A B} (m : M A) (f : A → M B) (w : world) :
  (m ≫= f) w =
  match m w with
  | (Ok a, w') => f a w'
  | (Raise e, w') => (Raise e, w')
  end.
Proof. done. Qed.

Lemma Forall2_fmap_eq {A B C} (f : A → C) (g : B → C) (l : list A)
    (k : list B) :
  Forall2 (λ x y, f x = g y) l k → f <$> l = g <$> k.
Proof. induction 1 as [|x y l k Hxy _ IH]; [done|]. simpl. by f_equal. Qed.

(** The whole of [get_klocwork_issues]: the search request, then either
    its failure, or the failure of the indexing, or the detail requests,
    whose results are merged in the order the schedule delivers them. *)
Lemma get_klocwork_issues_run (self : KlocworkWebApi)
    (build project : string) (project_root : option string)
    (sched : list label) (w : world) :
  let url := api_url self in
  let sreq := credentials self ∪ search_params project build in
  let run := get_klocwork_issues self build project project_root sched w in
  match fetch_result url sreq with
  | Raise e => run.1 = Raise e ∧ calls run.2 = calls w ++ [(url, sreq)]
  | Ok issues_response =>
      match for_each (index_issue project) issues_response (∅, []) with
      | Raise e => run.1 = Raise e ∧ calls run.2 = calls w ++ [(url, sreq)]
      | Ok (t, reqs) =>
          ∃ responses,
            responses ≡ₚ
              (λ req, fetch_result url (credentials self ∪ req)) <$> reqs ∧
            run.1 = (t' ← merge_all t responses;
                     map_each (derive_fields project_root)
                              (table_values t')) ∧
            calls run.2 =
              calls w ++ (url, sreq)
                :: ((λ req, (url, credentials self ∪ req)) <$> reqs)
      end
  end.
Proof.
  intros url sreq run.
  destruct (search_phase_spec self build project w) as (w1 & Hw1 & Hcalls & Hsp).
  fold url sreq in Hcalls, Hsp.
  assert (∀ e, (search_phase self build project w).1 = Raise e →
               run.1 = Raise e ∧ calls run.2 = calls w ++ [(url, sreq)])
    as Hfail.
  { intros e He. unfold run, get_klocwork_issues. rewrite M_bind_run.
    destruct (search_phase self build project w) as [res w1'].
    simpl in He, Hw1. subst res w1'. done. }
  destruct (fetch_result url sreq) as [issues_response|e]; [|by apply Hfail].
  destruct (for_each (index_issue project) issues_response (∅, []))
    as [[t reqs]|e]; [|by apply Hfail].
  destruct Hsp as (locs & Hres & Hlocs).
  assert ((λ p, fetch_result url (deref w1 p)) <$> locs =
          (λ req, fetch_result url (credentials self ∪ req)) <$> reqs)
    as Hresults.
  { apply Forall2_fmap_eq. eapply Forall2_impl; [done|].
    by intros l req ->. }
  assert ((λ p, (url, deref w1 p)) <$> locs =
          (λ req, (url, credentials self ∪ req)) <$> reqs) as Hlog.
  { apply Forall2_fmap_eq. eapply Forall2_impl; [done|].
    by intros l req ->. }
  assert (∃ responses,
    iterate sched (match locs with
                   | [] => EmptyList
                   | _ :: _ =>
                       PoolIter (length locs `min` MAX_PARALLEL_FETCH_COUNT)
                         url locs
                   end) w1 =
      (Ok responses,
       World (heap w1)
             (calls w1 ++ ((λ p, (url, deref w1 p)) <$> locs))) ∧
    responses ≡ₚ (λ p, fetch_result url (deref w1 p)) <$> locs)
    as (responses & Hit & Hperm).
  { destruct locs as [|l locs].
    - exists []. split; [|done]. simpl. rewrite app_nil_r. by destruct w1.
    - apply iterate_pool. right. unfold MAX_PARALLEL_FETCH_COUNT. simpl. lia. }
  exists responses. split.
  { by rewrite Hperm, Hresults. }
  unfold run, get_klocwork_issues. rewrite M_bind_run.
  destruct (search_phase self build project w) as [res w1'].
  simpl in Hres, Hw1. subst res w1'. cbn [fst snd].
  rewrite M_bind_run, Hit, M_bind_run. unfold lift.
  split.
  - unfold mbind, outcome_bind. by destruct (merge_all t responses).
  -     destruct (merge_all t responses); simpl;
      by rewrite Hcalls, Hlog, <-(assoc (++)).
Qed.

End Requests.

Section Assembly.
Context `{Env}.

(** X9: [get_klocwork_checkers] issues one request, for the action
    [defect_types] of the project with the credentials of the API object,
    and returns what the server's answer to it decodes to (or raises its
    failure); the objects that were in the store before are untouched. *)
Theorem get_klocwork_checkers_request (self : KlocworkWebApi)
    (project : string) (w : world) :
  let req := credentials self
             ∪ {[ "action" := VStr "defect_types";
                  "project" := VStr project ]} in
  (get_klocwork_checkers self project w).1 = fetch_result (api_url self) req ∧
  calls (get_klocwork_checkers self project w).2 =
    calls w ++ [(api_url self, req)] ∧
  ∀ l, l ∈ dom (heap w) →
       heap (get_klocwork_checkers self project w).2 !! l = heap w !! l.
Proof.
  intros req.
  remember (get_klocwork_checkers self project w) as run eqn:Hrun.
  unfold get_klocwork_checkers in Hrun.
  rewrite M_bind_run in Hrun. unfold alloc at 1 in Hrun.
  set (lc := fresh (dom (heap w))) in Hrun.
  set (wa := World (<[lc := _]> (heap w)) (calls w)) in Hrun.
  rewrite M_bind_run in Hrun. unfold alloc at 1 in Hrun.
  set (lp := fresh (dom (heap wa))) in Hrun.
  set (wb := World (<[lp := _]> (heap wa)) (calls wa)) in Hrun.
  assert (lc ∈ dom (heap wa)) as Hlc.
  { unfold wa; simpl. rewrite dom_insert_L.
    apply elem_of_union_l. by apply elem_of_singleton. }
  assert (lp ≠ lc) as Hne.
  { intros Heq. apply (is_fresh (dom (heap wa))). fold lp. by rewrite Heq. }
  rewrite fetch_eq in Hrun.
  assert (deref wb lc ∪ deref wb lp = req) as Hreq.
  { unfold deref, wb, wa; simpl. rewrite lookup_total_insert_eq.
    rewrite lookup_total_insert_ne by done.
    by rewrite lookup_total_insert_eq. }
  rewrite Hreq in Hrun. subst run.
  split_and!; [done..|]. intros l Hl. simpl.
  assert (l ≠ lc) as Hl1.
  { intros ->. by apply (is_fresh (dom (heap w))). }
  assert (l ≠ lp) as Hl2.
  { intros ->. apply (is_fresh (dom (heap wa))). fold lp.
    unfold wa; simpl. rewrite dom_insert_L. by apply elem_of_union_r. }
  by rewrite !lookup_insert_ne.
Qed.

(** X10: what [get_klocwork_issues] hands to the pool.  When the search
    response is decoded and indexed without an exception, the tasks given
    to [multifetch] are one object per search record, in the order of the
    records, and after [multifetch] has updated them each holds the
    [issue_details] request for the project with the id of its record
    and the user and the token of the API object; the pool has
    [min(n, 20)] workers for [n] records, and there is no pool for none. *)
Theorem get_klocwork_issues_detail_tasks (self : KlocworkWebApi)
    (build project : string) (w : world)
    (issues_response : list value) (t : table) (reqs : list dict) :
  let url := api_url self in
  let sreq := credentials self ∪ search_params project build in
  let phase1 := search_phase self build project w in
  fetch_result url sreq = Ok issues_response →
  for_each (index_issue project) issues_response (∅, []) = Ok (t, reqs) →
  ∃ tasks : list nat,
    phase1.1 =
      Ok (t, match tasks with
             | [] => EmptyList
             | _ :: _ =>
                 PoolIter (length tasks `min` MAX_PARALLEL_FETCH_COUNT)
                   url tasks
             end) ∧
    Forall2 (λ task issue,
               ∃ id, getitem issue "id" = Ok id ∧
                     deref phase1.2 task
                       = credentials self ∪ details_request project id)
            tasks issues_response.
Proof.
  intros url sreq phase1 Hsearch Hindex.
  destruct (search_phase_spec self build project w) as (w1 & Hw1 & _ & Hsp).
  fold url sreq phase1 in Hw1, Hsp. simpl in Hsp.
  rewrite Hsearch, Hindex in Hsp. destruct Hsp as (tasks & Hres & Htasks).
  exists tasks. split; [done|]. rewrite Hw1.
  apply index_issues_Ok in Hindex as (_ & _ & reqs' & [= <-] & Hreqs).
  apply Forall2_flip in Hreqs.
  eapply Forall2_trans; [|exact Htasks|exact Hreqs].
  intros task req issue Hd (id & Hid & ->). by exists id.
Qed.

Lemma index_issues_keys (project : string) (issues_response : list value)
    (acc acc' : table * list dict) :
  for_each (index_issue project) issues_response acc = Ok acc' →
  Forall (λ issue, is_ok (getitem issue "id" ≫= py_str) = true)
         issues_response.
Proof.
  intros Hindex.
  apply (for_each_invariant (index_issue project) (λ _, True)
           (λ issue, is_ok (getitem issue "id" ≫= py_str) = true)
           issues_response acc acc'); [|done..].
  intros s issue s' _. unfold index_issue, mbind, outcome_bind.
  destruct (getitem _ "id") as [id|]; [|done]. by destruct (py_str id).
Qed.

(** X11: a failure of the search stops [get_klocwork_issues] before any
    detail request.  If the search request fails in transport or decoding,
    the same exception is raised; if a search record has no [id] (or is no
    dictionary, or its id has no [str]), an exception is raised.  In both
    cases the search is the only request that was sent. *)
Theorem get_klocwork_issues_search_failure (self : KlocworkWebApi)
    (build project : string) (project_root : option string)
    (sched : list label) (w : world) :
  let url := api_url self in
  let sreq := credentials self ∪ search_params project build in
  let run := get_klocwork_issues self build project project_root sched w in
  (∀ e, fetch_result url sreq = Raise e →
        run.1 = Raise e ∧ calls run.2 = calls w ++ [(url, sreq)]) ∧
  (∀ issues_response issue,
      fetch_result url sreq = Ok issues_response →
      issue ∈ issues_response →
      raises (getitem issue "id" ≫= py_str) →
      raises run.1 ∧ calls run.2 = calls w ++ [(url, sreq)]).
Proof.
  intros url sreq run.
  pose proof (get_klocwork_issues_run self build project project_root sched w)
    as Hrun. fold url sreq run in Hrun. simpl in Hrun.
  split.
  - intros e He. by rewrite He in Hrun.
  - intros issues_response issue Hsearch Hin [e He].
    rewrite Hsearch in Hrun.
    destruct (for_each (index_issue project) issues_response (∅, []))
      as [[t reqs]|e'] eqn:Hindex.
    + apply index_issues_keys in Hindex.
      rewrite Forall_forall in Hindex. specialize (Hindex issue Hin).
      by rewrite He in Hindex.
    + destruct Hrun as [-> ->]. split; [by exists e'|done].
Qed.

(** X12: a failure of one detail request fails the whole call, under every
    schedule of the pool.  If the answer to some detail request cannot be
    fetched or decoded, or holds a record whose [id] is not a string key of
    the table, [get_klocwork_issues] raises an exception. *)
Theorem get_klocwork_issues_detail_failure (self : KlocworkWebApi)
    (build project : string) (project_root : option string)
    (sched : list label) (w : world)
    (issues_response : list value) (t : table) (reqs : list dict)
    (req : dict) :
  let url := api_url self in
  let sreq := credentials self ∪ search_params project build in
  let run := get_klocwork_issues self build project project_root sched w in
  fetch_result url sreq = Ok issues_response →
  for_each (index_issue project) issues_response (∅, []) = Ok (t, reqs) →
  req ∈ reqs →
  match fetch_result url (credentials self ∪ req) with
  | Raise _ => True
  | Ok records => ∃ r, r ∈ records ∧ ¬ id_is_key t r
  end →
  raises run.1.
Proof.
  intros url sreq run Hsearch Hindex Hin Hbad.
  pose proof (get_klocwork_issues_run self build project project_root sched w)
    as Hrun. fold url sreq run in Hrun. simpl in Hrun.
  rewrite Hsearch, Hindex in Hrun.
  destruct Hrun as (responses & Hperm & -> & _).
  destruct (merge_all t responses) as [t'|e] eqn:Hmerge; [|by exists e].
  exfalso. apply merge_all_Ok in Hmerge as [_ Hall].
  rewrite Forall_forall in Hall.
  destruct (Hall (fetch_result url (credentials self ∪ req)))
    as (records & Hrecords & Hkeys).
  { rewrite Hperm. apply list_elem_of_fmap. by exists req. }
  rewrite Hrecords in Hbad. destruct Hbad as (r & Hr & Hnot).
  rewrite Forall_forall in Hkeys. by apply Hnot, Hkeys.
Qed.

End Assembly.

Section Schedules.
Context `{Env}.

Lemma merge_record_comm (t ta tab : table) (a b : value) :
  merge_record t a = Ok ta → merge_record ta b = Ok tab →
  (∀ id, getitem a "id" = Ok id → getitem b "id" ≠ Ok id) →
  ∃ tb, merge_record t b = Ok tb ∧ merge_record tb a = Ok tab.
Proof.
  unfold merge_record, mbind, outcome_bind. intros Ha Hb Hne.
  destruct (getitem a "id") as [ida|] eqn:Hida; [|done].
  destruct (getitem b "id") as [idb|] eqn:Hidb; [|done].
  assert (ida ≠ idb) as Hdiff.
  { intros ->. by apply (Hne idb). }
  unfold table_getitem in *.
  destruct ida as [| | |sa| |]; try done.
  destruct (t !! sa) as [ea|] eqn:Hsa; [|done]. simpl in Ha.
  destruct (method_update ea a) as [ia|] eqn:Hia; [|done].
  injection Ha as <-.
  destruct idb as [| | |sb| |]; try done.
  assert (sa ≠ sb) as Hs by congruence.
  rewrite lookup_insert_ne in Hb by done.
  destruct (t !! sb) as [eb|] eqn:Hsb; [|done]. simpl in Hb.
  destruct (method_update eb b) as [ib|] eqn:Hib; [|done].
  injection Hb as <-.
  exists (<[sb := ib]> t). split; [simpl; by rewrite Hib|].
  rewrite lookup_insert_ne by done. rewrite Hsa. simpl. rewrite Hia.
  f_equal. by apply insert_insert_ne.
Qed.

Lemma merge_records_record_comm (records : list value) (t t1 t2 : table)
    (b : value) :
  for_each merge_record records t = Ok t1 → merge_record t1 b = Ok t2 →
  (∀ a id, a ∈ records → getitem a "id" = Ok id → getitem b "id" ≠ Ok id) →
  ∃ tb, merge_record t b = Ok tb ∧ for_each merge_record records tb = Ok t2.
Proof.
  revert t. induction records as [|a records IH]; intros t; simpl.
  - intros [= <-] Hb _. eauto.
  - unfold mbind, outcome_bind.
    destruct (merge_record t a) as [ta|] eqn:Ha; [|done].
    intros Hrest Hb Hne.
    destruct (IH ta Hrest Hb) as (tb & Hb' & Hrest').
    { intros a' id Hin. apply Hne. by right. }
    destruct (merge_record_comm t ta tb a b Ha Hb') as (tb' & Hb'' & Ha').
    { intros id. apply Hne. by left. }
    exists tb'. split; [done|]. by rewrite Ha'.
Qed.

Lemma merge_records_comm (records_a records_b : list value)
    (t t1 t2 : table) :
  for_each merge_record records_a t = Ok t1 →
  for_each merge_record records_b t1 = Ok t2 →
  (∀ a b id, a ∈ records_a → b ∈ records_b →
             getitem a "id" = Ok id → getitem b "id" ≠ Ok id) →
  ∃ t', for_each merge_record records_b t = Ok t' ∧
        for_each merge_record records_a t' = Ok t2.
Proof.
  revert t t1. induction records_b as [|b records_b IH]; intros t t1; simpl.
  - intros Ha [= <-] _. eauto.
  - unfold mbind, outcome_bind. intros Ha.
    destruct (merge_record t1 b) as [t1'|] eqn:Hb; [|done].
    intros Hrest Hne.
    destruct (merge_records_record_comm records_a t t1 t1' b Ha Hb)
      as (tb & Hb' & Ha').
    { intros a id Hin. apply Hne; [done|by left]. }
    rewrite Hb'. apply (IH tb t1'); [done..|].
    intros a b' id ? ?. apply Hne; [done|by right].
Qed.

Lemma merge_response_comm (a b : result) (t t1 t2 : table) :
  merge_response t a = Ok t1 → merge_response t1 b = Ok t2 →
  a = b ∨ ¬ shares_id a b →
  ∃ t', merge_response t b = Ok t' ∧ merge_response t' a = Ok t2.
Proof.
  intros Ha Hb [<-|Hne]; [eauto|].
  unfold merge_response, mbind, outcome_bind in *.
  destruct a as [records_a|]; [|done]. destruct b as [records_b|]; [|done].
  apply (merge_records_comm records_a records_b t t1 t2); [done..|].
  intros ra rb id ? ? ? ?. apply Hne.
  by exists records_a, records_b, ra, rb, id.
Qed.

(** The table after the merge does not depend on the order in which the
    responses arrive, when different responses share no id. *)
Lemma merge_all_Permutation (responses responses' : list result) :
  responses ≡ₚ responses' →
  (∀ a b, a ∈ responses → b ∈ responses → a = b ∨ ¬ shares_id a b) →
  ∀ t t', merge_all t responses = Ok t' → merge_all t responses' = Ok t'.
Proof.
  unfold merge_all.
  induction 1 as [|x l l' Hperm IH|x y l|l l' l'' Hperm IH Hperm' IH'];
    intros Hdisj t t'.
  - done.
  - simpl. unfold mbind, outcome_bind.
    destruct (merge_response t x) as [t1|]; [|done].
    apply IH. intros a b ? ?. apply Hdisj; by right.
  - simpl. unfold mbind, outcome_bind.
    destruct (merge_response t y) as [t1|] eqn:Hy; [|done].
    destruct (merge_response t1 x) as [t2|] eqn:Hx; [|done].
    destruct (merge_response_comm y x t t1 t2 Hy Hx) as (t1' & -> & ->);
      [|done].
    apply Hdisj; [by left|by right; left].
  - intros Hm. apply IH', IH; [|done..].
    intros a b Ha Hb. apply Hdisj; by rewrite Hperm.
Qed.

(** X13: the schedule of the thread pool does not change what
    [get_klocwork_issues] returns, as long as the answers to different
    detail requests hold no records with the same [id]: a list of issues
    returned under one schedule is returned under every other one. *)
Theorem get_klocwork_issues_schedule_independent (self : KlocworkWebApi)
    (build project : string) (project_root : option string)
    (sched sched' : list label) (w : world)
    (issues_response : list value) (t : table) (reqs : list dict)
    (issues : list value) :
  let url := api_url self in
  let sreq := credentials self ∪ search_params project build in
  let run := get_klocwork_issues self build project project_root in
  fetch_result url sreq = Ok issues_response →
  for_each (index_issue project) issues_response (∅, []) = Ok (t, reqs) →
  (∀ req req', req ∈ reqs → req' ∈ reqs →
      fetch_result url (credentials self ∪ req)
        = fetch_result url (credentials self ∪ req') ∨
      ¬ shares_id (fetch_result url (credentials self ∪ req))
                  (fetch_result url (credentials self ∪ req'))) →
  (run sched w).1 = Ok issues →
  (run sched' w).1 = Ok issues.
Proof.
  intros url sreq run Hsearch Hindex Hdisj Hok.
  pose proof (get_klocwork_issues_run self build project project_root sched w)
    as Hrun.
  pose proof (get_klocwork_issues_run self build project project_root sched' w)
    as Hrun'.
  fold url sreq run in Hrun, Hrun'. simpl in Hrun, Hrun'.
  rewrite Hsearch, Hindex in Hrun, Hrun'.
  destruct Hrun as (responses & Hperm & Hres & _).
  destruct Hrun' as (responses' & Hperm' & Hres' & _).
  rewrite Hres in Hok. rewrite Hres'.
  destruct (merge_all t responses) as [t'|] eqn:Hmerge; [|done].
  rewrite (merge_all_Permutation responses responses') with (t' := t');
    [done|by rewrite Hperm, Hperm'| |done].
  intros a b. rewrite !Hperm.
  intros (req & -> & ?)%list_elem_of_fmap (req' & -> & ?)%list_elem_of_fmap.
  by apply Hdisj.
Qed.

End Schedules.

Section Derived.
Context `{Env}.

(** X14: when the loop over the assembled issues raises.  The body
    succeeds on an entry exactly when the entry is a dictionary whose
    [history], if it has one, is a list that starts with a dictionary,
    whose [location] is a string, and which has a [code] whenever the
    latest comment is true as a condition. *)
Theorem derive_fields_succeeds_iff (project_root : option string)
    (issue : value) :
  is_ok (derive_fields project_root issue) = true ↔
  ∃ (d e : dict) (rest : list value) (s : string),
    issue = VDict d ∧
    default (VList [VDict ∅]) (d !! "history") = VList (VDict e :: rest) ∧
    d !! "location" = Some (VStr s) ∧
    (truthy (default (VStr "") (e !! "comment")) = true →
     is_Some (d !! "code")).
Proof.
  unfold derive_fields, mbind, outcome_bind. split.
  - destruct issue as [| | | | |d]; try done. cbn [method_get].
    destruct (default _ (d !! "history")) as [| | |[|c ?]|[|[| | | | |e] rest]|]
      eqn:Hhistory; try done.
    cbn [getitem0 method_get setitem getitem]. rewrite lookup_insert_eq.
    destruct (truthy (default (VStr "") (e !! "comment"))) eqn:Htruthy;
      cbn [negb].
    + rewrite lookup_insert_ne by done.
      destruct (d !! "code") as [code|] eqn:Hcode; [|done].
      cbn [setitem getitem]. rewrite !lookup_insert_ne by done.
      destruct (d !! "location") as [[| | |s| |]|] eqn:Hloc; try done.
      intros _. exists d, e, rest, s. split_and!; [done..|]. eauto.
    + cbn [setitem getitem]. rewrite !lookup_insert_ne by done.
      destruct (d !! "location") as [[| | |s| |]|] eqn:Hloc; try done.
      intros _. exists d, e, rest, s. split_and!; [done..|]. congruence.
  - intros (d & e & rest & s & -> & Hhistory & Hloc & Hcode).
    cbn [method_get]. rewrite Hhistory.
    cbn [getitem0 method_get setitem getitem]. rewrite lookup_insert_eq.
    destruct (truthy (default (VStr "") (e !! "comment"))) eqn:Htruthy;
      cbn [negb].
    + rewrite lookup_insert_ne by done.
      destruct Hcode as [code ->]; [done|].
      cbn [setitem getitem]. rewrite !lookup_insert_ne by done.
      by rewrite Hloc.
    + cbn [setitem getitem]. rewrite !lookup_insert_ne by done.
      by rewrite Hloc.
Qed.

Lemma no_backslash_replace (s : string) :
  no_backslash (replace_char "\" "/" s) = true.
Proof.
  induction s as [|c s IH]; [done|]. cbn [replace_char no_backslash].
  rewrite IH, andb_true_r.
  destruct (Ascii.eqb c "\") eqn:Hc; [done|]. by rewrite Hc.
Qed.

Lemma relative_location_cases (location : string)
    (project_root : option string) :
  (root_given project_root = false →
   relative_location location project_root = location) ∧
  (∀ root, project_root = Some root → relpath location root = None →
           relative_location location project_root = location) ∧
  (∀ root rel, project_root = Some root → root ≠ "" →
               relpath location root = Some rel →
               relative_location location project_root = rel).
Proof.
  unfold relative_location. split_and!.
  - intros Hroot. destruct project_root as [root|]; [|done]. by rewrite Hroot.
  - intros root -> Hrel. rewrite Hrel. simpl. by destruct (String.eqb root "").
  - intros root rel -> Hroot Hrel. rewrite Hrel. simpl.
    by destruct (String.eqb_spec root "").
Qed.

(** X15: the [location] of an assembled issue.  It is a string without
    backslash, computed from the [location] string [s] of the entry:
    without a project root (none, or the empty string), and also when
    [os.path.relpath] raises, it is the normalised [s] with every backslash
    replaced by a slash; otherwise it is the relative path, with the same
    replacement. *)
Theorem derive_fields_location (project_root : option string)
    (d o : dict) :
  derive_fields project_root (VDict d) = Ok (VDict o) →
  ∃ s loc : string,
    d !! "location" = Some (VStr s) ∧
    o !! "location" = Some (VStr loc) ∧
    no_backslash loc = true ∧
    (root_given project_root = false →
     loc = replace_char "\" "/" (normpath s)) ∧
    (∀ root, project_root = Some root → relpath (normpath s) root = None →
             loc = replace_char "\" "/" (normpath s)) ∧
    (∀ root rel, project_root = Some root → root ≠ "" →
                 relpath (normpath s) root = Some rel →
                 loc = replace_char "\" "/" rel).
Proof.
  assert (∀ s, ∃ loc : string,
    Some (VStr (replace_char "\" "/"
                  (relative_location (normpath s) project_root)))
      = Some (VStr loc) ∧
    no_backslash loc = true ∧
    (root_given project_root = false →
     loc = replace_char "\" "/" (normpath s)) ∧
    (∀ root, project_root = Some root → relpath (normpath s) root = None →
             loc = replace_char "\" "/" (normpath s)) ∧
    (∀ root rel, project_root = Some root → root ≠ "" →
                 relpath (normpath s) root = Some rel →
                 loc = replace_char "\" "/" rel)) as Hloc.
  { intros s. eexists. split; [done|].
    split; [apply no_backslash_replace|].
    destruct (relative_location_cases (normpath s) project_root)
      as (Hnone & Hfail & Hrel).
    split_and!.
    - intros ?. by rewrite Hnone.
    - intros root ? ?. by rewrite (Hfail root).
    - intros root rel ? ? ?. by rewrite (Hrel root rel). }
  unfold derive_fields, mbind, outcome_bind. cbn [method_get].
  destruct (getitem0 _) as [latest|]; [|done].
  destruct (method_get latest _ _) as [comment|]; [|done].
  cbn [setitem getitem]. rewrite lookup_insert_eq.
  destruct (truthy comment); cbn [negb].
  - rewrite lookup_insert_ne by done.
    destruct (d !! "code") as [code|]; [|done].
    cbn [setitem getitem]. rewrite !lookup_insert_ne by done.
    destruct (d !! "location") as [[| | |s| |]|]; try done.
    cbn [normpath_value]. intros [= <-]. rewrite lookup_insert_eq.
    destruct (Hloc s) as (loc & ? & ?). by exists s, loc.
  - cbn [setitem getitem]. rewrite !lookup_insert_ne by done.
    destruct (d !! "location") as [[| | |s| |]|]; try done.
    cbn [normpath_value]. intros [= <-]. rewrite lookup_insert_eq.
    destruct (Hloc s) as (loc & ? & ?). by exists s, loc.
Qed.

Lemma index_issues_dom (project : string) (issues_response : list value)
    (t0 t : table) (q0 q : list dict) :
  for_each (index_issue project) issues_response (t0, q0) = Ok (t, q) →
  ∃ keys : list string,
    map_each (λ issue, getitem issue "id" ≫= py_str) issues_response
      = Ok keys ∧
    dom t = dom t0 ∪ list_to_set keys.
Proof.
  revert t0 q0. induction issues_response as [|issue rest IH]; intros t0 q0.
  - simpl. intros [= <- <-]. exists []. split; [done|]. simpl.
    by rewrite (right_id_L ∅ (∪)).
  - cbn [for_each map_each]. unfold mbind at 1, outcome_bind at 1.
    destruct (index_issue project (t0, q0) issue) as [[t1 q1]|] eqn:Hidx;
      [|done].
    intros (keys & Hkeys & Hdom)%IH.
    unfold index_issue, mbind, outcome_bind in Hidx.
    unfold mbind, outcome_bind.
    destruct (getitem issue "id") as [id|] eqn:Hid; [|done].
    destruct (py_str id) as [key|] eqn:Hkey; [|done].
    injection Hidx as <- <-. simpl in Hdom.
    unfold mbind, outcome_bind in Hkeys. rewrite Hkeys.
    exists (key :: keys). split; [done|].
    rewrite Hdom, dom_insert_L. simpl.
    rewrite (comm_L (∪) {[key]} (dom t0)). by rewrite <-(assoc_L (∪)).
Qed.

(** X16: how many issues come back.  When [get_klocwork_issues] returns,
    the search response was decoded, every search record has an [id] with
    a [str], and the number of issues returned is the number of different
    [str(id)] among the search records: records with the same [str(id)]
    give one issue, and detail records add none. *)
Theorem get_klocwork_issues_count (self : KlocworkWebApi)
    (build project : string) (project_root : option string)
    (sched : list label) (w : world) (issues : list value) :
  let url := api_url self in
  let sreq := credentials self ∪ search_params project build in
  (get_klocwork_issues self build project project_root sched w).1
    = Ok issues →
  ∃ (issues_response : list value) (keys : list string),
    fetch_result url sreq = Ok issues_response ∧
    map_each (λ issue, getitem issue "id" ≫= py_str) issues_response
      = Ok keys ∧
    length issues = size (list_to_set keys : gset string) ∧
    length issues ≤ length issues_response.
Proof.
  intros url sreq Hok.
  pose proof (get_klocwork_issues_run self build project project_root sched w)
    as Hrun. fold url sreq in Hrun. simpl in Hrun.
  destruct (fetch_result url sreq) as [issues_response|e];
    [|destruct Hrun as [Hrun _]; by rewrite Hrun in Hok].
  destruct (for_each (index_issue project) issues_response (∅, []))
    as [[t reqs]|e] eqn:Hindex;
    [|destruct Hrun as [Hrun _]; by rewrite Hrun in Hok].
  destruct Hrun as (responses & _ & Hrun & _). rewrite Hrun in Hok.
  unfold mbind, outcome_bind in Hok.
  destruct (merge_all t responses) as [t'|] eqn:Hmerge; [|done].
  apply merge_all_Ok in Hmerge as [Hdom _].
  apply map_each_Ok, Forall2_length in Hok.
  apply index_issues_dom in Hindex as (keys & Hkeys & Hdomt).
  rewrite dom_empty_L, (left_id_L ∅ (∪)) in Hdomt.
  assert (length issues = size (list_to_set keys : gset string)) as Hlen.
  { rewrite <-Hok. unfold table_values.
    rewrite length_fmap, length_map_to_list.
    by rewrite <-Hdomt, <-Hdom, size_dom. }
  exists issues_response, keys. split_and!; [done..|].
  rewrite Hlen. apply map_each_Ok, Forall2_length in Hkeys. rewrite Hkeys.
  clear. induction keys as [|k keys IH].
  - by rewrite list_to_set_nil, size_empty.
  - rewrite list_to_set_cons, size_union_alt, size_singleton.
    assert (size (list_to_set keys ∖ {[k]} : gset string)
            ≤ size (list_to_set keys : gset string)).
    { apply subseteq_size, subseteq_difference_l. done. }
    simpl. lia.
Qed.

End Derived.

Section Command.
Context `{Env}.

(** X17: what [KlocworkWebApi] is constructed from, and how the
    constructor fails.  It raises [TypeError] when the port is [None],
    [AttributeError] when the host is [None], the exception of [open] when
    the token file cannot be opened, and otherwise nothing but
    [RuntimeError] and [IndexError].  An object it returns was made from a
    host, a port and a token file that was opened; it has the URL
    [http://host:port/review/api], a token that is not empty, and its token
    and user are the fourth and third field of one line of the token file
    whose host and port are the requested ones. *)
Theorem KlocworkWebApi_init_sound (ltoken_file : outcome string)
    (host : option string) (port : option Z)
    (preferred_user : option string) :
  match KlocworkWebApi_init ltoken_file host port preferred_user with
  | Ok self =>
      ∃ (h : string) (p : Z) (content : string),
        host = Some h ∧ port = Some p ∧ ltoken_file = Ok content ∧
        api_url self
          = "http://" +:+ h +:+ ":" +:+ str_int p +:+ "/review/api" ∧
        api_ltoken self ≠ "" ∧
        ∃ entry h',
          entry ∈ file_lines content ∧
          split ";" (strip entry) !! 0 = Some h' ∧ getfqdn h' = getfqdn h ∧
          split ";" (strip entry) !! 1 = Some (str_int p) ∧
          split ";" (strip entry) !! 2 = Some (api_user self) ∧
          split ";" (strip entry) !! 3 = Some (api_ltoken self) ∧
          (user_given preferred_user = true →
           preferred_user = Some (api_user self))
  | Raise e =>
      (port = None ∧ e = TypeError) ∨
      (is_Some port ∧ host = None ∧ e = AttributeError) ∨
      (is_Some port ∧ is_Some host ∧ ltoken_file = Raise e) ∨
      (is_Some port ∧ is_Some host ∧ is_ok ltoken_file = true ∧
       (e = RuntimeError ∨ e = IndexError))
  end.
Proof.
  unfold KlocworkWebApi_init.
  destruct port as [p|]; [|by left].
  destruct host as [h|]; [|right; left; by eauto].
  destruct ltoken_file as [content|e]; [|right; right; left; by eauto].
  unfold get_token, mbind, outcome_bind.
  destruct (get_token_scan _ _ _ _) as [[ltoken user]|e] eqn:Hscan.
  - apply get_token_scan_sound in Hscan
      as [[= -> ->]|(entry & h' & u & t & ? & ? & ? & ? & ? & ? & ? & [= -> ->])].
    + do 3 right. split_and!; [by eauto..|done|by left].
    + destruct (String.eqb_spec t "").
      * do 3 right. split_and!; [by eauto..|done|by left].
      * exists h, p, content. simpl. split_and!; [done..|].
        by exists entry, h'.
  - apply get_token_scan_raises in Hscan as [-> _].
    do 3 right. split_and!; [by eauto..|done|by right].
Qed.

Lemma get_token_scan_other_hosts (host : string) (port : Z)
    (preferred_user : option string) (entries : list string) :
  (∀ entry h, entry ∈ entries → split ";" (strip entry) !! 0 = Some h →
              getfqdn h ≠ host) →
  get_token_scan host port preferred_user entries = Ok (None, None).
Proof.
  induction entries as [|entry rest IH]; [done|]. intros Hother.
  cbn [get_token_scan]. unfold index, mbind, outcome_bind.
  destruct (split ";" (strip entry) !! 0) as [h|] eqn:Hh.
  - destruct (String.eqb_spec (getfqdn h) host) as [Heq|_].
    + destruct (Hother entry h); [by left|done..].
    + apply IH. intros entry' h' ?. apply Hother. by right.
  - by destruct (strip entry) as [|c s]; simpl in Hh;
      [|destruct (Ascii.eqb c ";"); [|destruct (split ";" s)]].
Qed.

Lemma report_row_dict (o : dict) : report_row (VDict o) = Ok (cells o).
Proof. reflexivity. Qed.

Lemma write_rows_accepted (writerow : list value → outcome ())
    (issues : list value) (written : list (list value)) :
  (∀ row, writerow row = Ok ()) →
  Forall (λ issue, ∃ o, issue = VDict o) issues →
  ∃ rows,
    write_rows writerow issues written = (Ok (), written ++ rows) ∧
    Forall2 (λ issue row, ∃ o, issue = VDict o ∧ row = cells o) issues rows.
Proof.
  intros Hw Hall. revert written.
  induction Hall as [|issue issues [o ->] _ IH]; intros written.
  - exists []. by rewrite app_nil_r.
  - cbn [write_rows]. rewrite report_row_dict, Hw.
    destruct (IH (written ++ [cells o])) as (rows & -> & Hrows).
    exists (cells o :: rows). split.
    + by rewrite <-(assoc (++)).
    + constructor; [by exists o|done].
Qed.

(** X18: the report of [main].  When the API object is constructed, the
    issues are fetched and the writer accepts every row, [main] ends
    normally and has handed to the writer the header row of the nine field
    names and then one row per issue, in the order of the issues; a row
    holds, field by field, the value the issue has for the field, or the
    empty string if it has none.  Reading the fields of an issue never
    raises. *)
Theorem main_report (writerow : list value → outcome ())
    (ltoken_file : outcome string) (args : arguments) (sched : list label)
    (w w' : world) (self : KlocworkWebApi) (issues : list value) :
  KlocworkWebApi_init ltoken_file (args_host args) (args_port args)
    (args_user args) = Ok self →
  get_klocwork_issues self (args_build args) (args_project args) None sched w
    = (Ok issues, w') →
  (∀ row, writerow row = Ok ()) →
  ∃ rows,
    main writerow ltoken_file args sched w
      = (Ok (), (VStr <$> fields) :: rows, w') ∧
    Forall2 (λ issue row, ∃ o, issue = VDict o ∧ row = cells o) issues rows ∧
    Forall (λ row, length row = 9) rows.
Proof.
  intros Hinit Hrun Hw. unfold main. rewrite Hinit, Hrun, Hw.
  assert (Forall (λ issue, ∃ o, issue = VDict o) issues) as Hdicts.
  { apply Forall_forall. intros issue Hin.
    assert ((get_klocwork_issues self (args_build args) (args_project args)
               None sched w).1 = Ok issues) as Hok by (by rewrite Hrun).
    destruct (get_klocwork_issues_derived _ _ _ _ _ _ _ Hok _ Hin)
      as [entry Hentry].
    apply derive_fields_Ok in Hentry
      as (? & ? & ? & ? & ? & _ & _ & _ & _ & ->). eauto. }
  destruct (write_rows_accepted writerow issues [VStr <$> fields] Hw Hdicts)
    as (rows & -> & Hrows).
  exists rows. split_and!; [done..|].
  apply Forall_forall. intros row Hin.
  apply list_elem_of_lookup in Hin as [i Hi].
  by destruct (Forall2_lookup_r _ _ _ _ _ Hrows Hi) as (? & _ & o & _ & ->).
Qed.

(** X19: without a token nothing is sent and nothing is written.  [main]
    raises before any request to the server and before the header row:
    [TypeError] when the command line gives no port, [AttributeError] when
    it gives a port and no host, the exception of [open] when the token
    file cannot be opened, and [RuntimeError] when the file is read and no
    line of it is for the requested host (lines of any other shape, blank
    or short, are passed over). *)
Theorem main_without_token (writerow : list value → outcome ())
    (ltoken_file : outcome string) (args : arguments) (sched : list label)
    (w : world) :
  (args_port args = None →
   main writerow ltoken_file args sched w = (Raise TypeError, [], w)) ∧
  (is_Some (args_port args) → args_host args = None →
   main writerow ltoken_file args sched w = (Raise AttributeError, [], w)) ∧
  (∀ e, is_Some (args_port args) → is_Some (args_host args) →
        ltoken_file = Raise e →
        main writerow ltoken_file args sched w = (Raise e, [], w)) ∧
  (∀ host content,
      is_Some (args_port args) → args_host args = Some host →
      ltoken_file = Ok content →
      (∀ entry h, entry ∈ file_lines content →
                  split ";" (strip entry) !! 0 = Some h →
                  getfqdn h ≠ getfqdn host) →
      main writerow ltoken_file args sched w = (Raise RuntimeError, [], w)).
Proof.
  unfold main, KlocworkWebApi_init. split_and!.
  - by intros ->.
  - by intros [p ->] ->.
  - by intros e [p ->] [h ->] ->.
  - intros host content [p ->] -> -> Hother. unfold get_token. simpl.
    by rewrite get_token_scan_other_hosts.
Qed.

End Command.

Section MergeFields.

Lemma merge_record_inv (t t' : table) (r : value) :
  merge_record t r = Ok t' →
  ∃ (s : string) (d dr : dict),
    r = VDict dr ∧ dr !! "id" = Some (VStr s) ∧ t !! s = Some (VDict d) ∧
    t' = <[s := VDict (dr ∪ d)]> t.
Proof.
  unfold merge_record, mbind, outcome_bind.
  destruct (getitem r "id") as [id|] eqn:Hid; [|done].
  apply getitem_Ok in Hid as (dr & -> & Hid).
  unfold table_getitem. destruct id as [| | |s| |]; try done.
  destruct (t !! s) as [[| | | | |d]|] eqn:Hs; try done. simpl.
  intros [= <-]. by exists s, d, dr.
Qed.

Lemma merge_records_fields (records : list value) (t t' : table)
    (s : string) (d' : dict) :
  for_each merge_record records t = Ok t' →
  t' !! s = Some (VDict d') →
  ∃ d, t !! s = Some (VDict d) ∧
    (∀ f v, d' !! f = Some v →
       d !! f = Some v ∨
       ∃ dr, VDict dr ∈ records ∧ dr !! "id" = Some (VStr s) ∧
             dr !! f = Some v) ∧
    (∀ f, (∀ dr, VDict dr ∈ records → dr !! "id" = Some (VStr s) →
                 dr !! f = None) →
          d' !! f = d !! f).
Proof.
  revert t. induction records as [|r records IH]; intros t; simpl.
  - intros [= <-] Hs. exists d'. split_and!; [done|by left|done].
  - unfold mbind, outcome_bind.
    destruct (merge_record t r) as [ta|] eqn:Hr; [|done].
    intros Hrest Hs. destruct (IH ta Hrest Hs) as (da & Hda & Hfrom & Hkeep).
    apply merge_record_inv in Hr as (sr & d & dr & -> & Hid & Hsr & ->).
    destruct (decide (sr = s)) as [->|Hne].
    + rewrite lookup_insert_eq in Hda. injection Hda as <-.
      exists d. split_and!; [done| |].
      * intros f v Hv. destruct (Hfrom f v Hv) as [Hu|(dr' & ? & ? & ?)].
        -- apply lookup_union_Some_raw in Hu as [Hu|[_ Hu]]; [|by left].
           right. exists dr. split_and!; [by left|done..].
        -- right. exists dr'. split_and!; [by right|done..].
      * intros f Hnone. rewrite Hkeep.
        -- apply lookup_union_r, Hnone; [by left|done].
        -- intros dr' ? ?. apply Hnone; [by right|done].
    + rewrite lookup_insert_ne in Hda by done.
      exists da. split_and!; [done| |].
      * intros f v Hv. destruct (Hfrom f v Hv) as [?|(dr' & ? & ? & ?)];
          [by left|].
        right. exists dr'. split_and!; [by right|done..].
      * intros f Hnone. apply Hkeep. intros dr' ? ?.
        apply Hnone; [by right|done].
Qed.

(** X20: the merge of the detail responses keeps the issues apart.  After
    a merge that succeeded, an entry of the table that is a dictionary was
    one before, under the same key [s]; each of its fields has the value
    of the search record or the value some detail record with the id [s]
    gives it, and a field that no detail record with the id [s] has is as
    it was in the search record. *)
Theorem merge_all_fields (t t' : table) (responses : list result)
    (s : string) (d' : dict) :
  merge_all t responses = Ok t' →
  t' !! s = Some (VDict d') →
  ∃ d, t !! s = Some (VDict d) ∧
    (∀ f v, d' !! f = Some v →
       d !! f = Some v ∨ detail_field responses s f v) ∧
    (∀ f, (∀ v, ¬ detail_field responses s f v) → d' !! f = d !! f).
Proof.
  unfold merge_all. revert t.
  induction responses as [|response responses IH]; intros t; simpl.
  - intros [= <-] Hs. exists d'. split_and!; [done|by left|done].
  - unfold mbind, outcome_bind.
    destruct (merge_response t response) as [ta|] eqn:Hr; [|done].
    intros Hrest Hs. destruct (IH ta Hrest Hs) as (da & Hda & Hfrom & Hkeep).
    unfold merge_response, mbind, outcome_bind in Hr.
    destruct response as [records|]; [|done].
    destruct (merge_records_fields records t ta s da Hr Hda)
      as (d & Hd & Hfrom' & Hkeep').
    exists d. split_and!; [done| |].
    + intros f v Hv.
      destruct (Hfrom f v Hv) as [Hv'|(records' & dr & ? & ? & ? & ?)].
      * destruct (Hfrom' f v Hv') as [?|(dr & ? & ? & ?)]; [by left|].
        right. exists records, dr. split_and!; [by left|done..].
      * right. exists records', dr. split_and!; [by right|done..].
    + intros f Hnone. rewrite Hkeep.
      * apply Hkeep'. intros dr Hin Hid.
        destruct (dr !! f) as [v|] eqn:Hv; [|done].
        destruct (Hnone v). exists records, dr. split_and!; [by left|done..].
      * intros v (records' & dr & ? & ? & ? & ?). apply (Hnone v).
        exists records', dr. split_and!; [by right|done..].
Qed.

End MergeFields.

(** ** Further concrete runs *)

(** X1 on the file with two entries for the server, asked for [bob]. *)
Lemma get_token_sound_witness :
  (Some "tok2", Some "bob") = (None, None) ∨
  ∃ entry h user token,
    entry ∈ file_lines ltoken_two_users ∧
    split ";" (strip entry) !! 0 = Some h ∧
    @getfqdn no_server h = @getfqdn no_server "kw" ∧
    split ";" (strip entry) !! 1 = Some (str_int 8080) ∧
    split ";" (strip entry) !! 2 = Some user ∧
    split ";" (strip entry) !! 3 = Some token ∧
    (user_given (Some "bob") = true → Some "bob" = Some user) ∧
    (Some "tok2", Some "bob") = (Some token, Some user).
Proof.
  apply (@get_token_sound no_server ltoken_two_users "kw" 8080 (Some "bob")).
  vm_compute. reflexivity.
Defined.

(** X2 on a file whose only line has a single field. *)
Lemma get_token_raises_only_IndexError_witness :
  IndexError = IndexError ∧
  ∃ entry h,
    entry ∈ file_lines "kw" ∧
    split ";" (strip entry) !! 0 = Some h ∧
    @getfqdn no_server h = @getfqdn no_server "kw" ∧
    length (split ";" (strip entry)) < 4.
Proof.
  apply (@get_token_raises_only_IndexError no_server "kw" "kw" 8080 None).
  vm_compute. reflexivity.
Defined.

(** X4 on the two entries, asked for [bob]. *)
Lemma get_token_reads_formatted_file_witness :
  @get_token no_server (format_file two_credentials) "kw" 8080 (Some "bob")
  = Ok (@first_selected no_server "kw" 8080 (Some "bob") two_credentials).
Proof.
  apply (@get_token_reads_formatted_file no_server two_credentials "kw" 8080
           (Some "bob")).
  vm_compute. reflexivity.
Defined.

(** X10 on the search with two issues. *)
Lemma get_klocwork_issues_detail_tasks_witness :
  ∃ tasks : list nat,
    (@search_phase two_issues kw_api "b1" "proj" empty_world).1 =
      Ok (two_issues_table,
          match tasks with
          | [] => EmptyList
          | _ :: _ =>
              PoolIter (length tasks `min` MAX_PARALLEL_FETCH_COUNT)
                (api_url kw_api) tasks
          end) ∧
    Forall2 (λ task issue,
               ∃ id, getitem issue "id" = Ok id ∧
                     deref (@search_phase two_issues kw_api "b1" "proj"
                              empty_world).2 task
                       = credentials kw_api ∪ details_request "proj" id)
            tasks [issue_no_history; issue_2].
Proof.
  apply (@get_klocwork_issues_detail_tasks two_issues kw_api "b1" "proj"
           empty_world [issue_no_history; issue_2] two_issues_table
           [details_request "proj" (VInt 1); details_request "proj" (VInt 2)]).
  - vm_compute. reflexivity.
  - vm_compute. reflexivity.
Defined.

(** X12 on the issue whose detail record carries the id as a number. *)
Lemma get_klocwork_issues_detail_failure_witness :
  raises (@get_klocwork_issues (scenario "issue-no-history" "detail-int-id")
            kw_api "b1" "proj" None [] empty_world).1.
Proof.
  apply (@get_klocwork_issues_detail_failure
           (scenario "issue-no-history" "detail-int-id") kw_api "b1" "proj"
           None [] empty_world [issue_no_history] table_of_issue_1
           [details_request "proj" (VInt 1)]
           (details_request "proj" (VInt 1))).
  - vm_compute. reflexivity.
  - vm_compute. reflexivity.
  - by left.
  - match goal with
    | |- match ?x with _ => _ end =>
        assert (x = Ok [detail_int_id]) as -> by (vm_compute; reflexivity)
    end.
    exists detail_int_id. split; [by left|].
    intros (s & Hs & _). vm_compute in Hs. discriminate.
Defined.

(** X13 on the search with two issues: what the schedule that runs the
    tasks one after the other returns is returned under the overlapping
    one. *)
Lemma get_klocwork_issues_schedule_independent_witness :
  (@get_klocwork_issues two_issues kw_api "b1" "proj" None
     overlapping_schedule empty_world).1
  = Ok [assembled_no_history; assembled_2].
Proof.
  apply (@get_klocwork_issues_schedule_independent two_issues kw_api "b1"
           "proj" None [] overlapping_schedule empty_world
           [issue_no_history; issue_2] two_issues_table
           [details_request "proj" (VInt 1); details_request "proj" (VInt 2)]
           [assembled_no_history; assembled_2]).
  - vm_compute. reflexivity.
  - vm_compute. reflexivity.
  - intros req req' Hreq Hreq'.
    apply elem_of_cons in Hreq as [->|Hreq];
      [|apply list_elem_of_singleton in Hreq as ->];
      (apply elem_of_cons in Hreq' as [->|Hreq'];
       [|apply list_elem_of_singleton in Hreq' as ->]);
      try (by left);
      right; intros (ra & rb & a & b & id & Ha & Hb & Hina & Hinb & Hida & Hidb);
      vm_compute in Ha; vm_compute in Hb;
      injection Ha as <-; injection Hb as <-;
      apply list_elem_of_singleton in Hina as ->;
      apply list_elem_of_singleton in Hinb as ->;
      vm_compute in Hida; vm_compute in Hidb; congruence.
  - vm_compute. reflexivity.
Defined.

(** X15 on the issue [{id: 1, code: "Analyze", location: "/a/b/c"}],
    without project root. *)
Lemma derive_fields_location_witness :
  ∃ s loc : string,
    entry_no_history !! "location" = Some (VStr s) ∧
    derived_no_history !! "location" = Some (VStr loc) ∧
    no_backslash loc = true ∧
    (@root_given None = false →
     loc = replace_char "\" "/" (@normpath no_server s)) ∧
    (∀ root, None = Some root →
             @relpath no_server (@normpath no_server s) root = None →
             loc = replace_char "\" "/" (@normpath no_server s)) ∧
    (∀ root rel, None = Some root → root ≠ "" →
                 @relpath no_server (@normpath no_server s) root = Some rel →
                 loc = replace_char "\" "/" rel).
Proof.
  apply (@derive_fields_location no_server None entry_no_history
           derived_no_history).
  vm_compute. reflexivity.
Defined.

(** X16 on the scenario with one issue. *)
Lemma get_klocwork_issues_count_witness :
  ∃ (issues_response : list value) (keys : list string),
    @fetch_result (scenario "issue-no-history" "detail-str-id")
      (api_url kw_api) (credentials kw_api ∪ search_params "proj" "b1")
      = Ok issues_response ∧
    map_each (λ issue, getitem issue "id"
                ≫= @py_str (scenario "issue-no-history" "detail-str-id"))
      issues_response = Ok keys ∧
    length [assembled_no_history] = size (list_to_set keys : gset string) ∧
    length [assembled_no_history] ≤ length issues_response.
Proof.
  apply (@get_klocwork_issues_count
           (scenario "issue-no-history" "detail-str-id") kw_api "b1" "proj"
           None [] empty_world [assembled_no_history]).
  vm_compute. reflexivity.
Defined.

(** X18 on the scenario with one issue and a writer that accepts every
    row. *)
Lemma main_report_witness :
  ∃ rows,
    @main (scenario "issue-no-history" "detail-str-id") accept_row
      (Ok ltoken_two_users) snapshot_args [] empty_world
      = (Ok (), (VStr <$> fields) :: rows, snapshot_world) ∧
    Forall2 (λ issue row, ∃ o, issue = VDict o ∧ row = cells o)
      [assembled_no_history] rows ∧
    Forall (λ row, length row = 9) rows.
Proof.
  apply (@main_report (scenario "issue-no-history" "detail-str-id")
           accept_row (Ok ltoken_two_users) snapshot_args [] empty_world
           snapshot_world kw_api [assembled_no_history]).
  - vm_compute. reflexivity.
  - vm_compute. reflexivity.
  - done.
Defined.

(** X19 on a token file that has no entry for the server. *)
Lemma main_without_token_witness :
  @main no_server accept_row (Ok ltoken_other_host) snapshot_args []
    empty_world
  = (Raise RuntimeError, [], empty_world).
Proof.
  apply (proj2 (proj2 (proj2
           (@main_without_token no_server accept_row (Ok ltoken_other_host)
              snapshot_args [] empty_world))) "kw" ltoken_other_host);
    [by eexists|done|done|].
  intros entry h Hin Hh. vm_compute in Hin.
  apply elem_of_cons in Hin as [->|Hin];
    [|apply list_elem_of_singleton in Hin as ->];
    vm_compute in Hh; injection Hh as <-; vm_compute; discriminate.
Defined.

(** X20 on the table of one issue and its detail record. *)
Lemma merge_all_fields_witness :
  ∃ d, table_of_issue_1 !! "1" = Some (VDict d) ∧
    (∀ f v, merged_no_history !! f = Some v →
       d !! f = Some v ∨ detail_field [Ok [detail_str_id]] "1" f v) ∧
    (∀ f, (∀ v, ¬ detail_field [Ok [detail_str_id]] "1" f v) →
          merged_no_history !! f = d !! f).
Proof.
  apply (merge_all_fields table_of_issue_1
           {[ "1" := VDict merged_no_history ]} [Ok [detail_str_id]]).
  - vm_compute. reflexivity.
  - vm_compute. reflexivity.
Defined.
